(** * nabia: the engine package (core/engine/engine.go)

    A shallow embedding of the key-value engine: records, the store
    primitives [Exists], [Read], [Write], [Destroy], and the snapshot
    functions [saveToFile], [loadFromFile] and [NewNabiaDB], together
    with the properties of the engine that its specification states. *)

From Stdlib Require Import Strings.String Strings.Ascii Strings.Byte List NArith Lia.
From stdpp Require Import base option list strings gmap fin_maps.

Local Open Scope string_scope.
Local Open Scope list_scope.
Local Open Scope nat_scope.

(** ** Go values used by the engine *)

(** Backing arrays of byte slices live in a heap; a location is the
    index of the array. Arrays are never freed (garbage collection is
    not observable). *)
Definition loc := nat.

(** A Go [[]byte]: either the nil slice, or a window of [len] bytes
    starting at offset [off] of a backing array. Copying a slice value
    copies this header only; the backing array is shared. *)
Inductive slice :=
| nil_slice
| mkSlice (array : loc) (off len : nat).

Global Instance slice_eq_dec : EqDecision slice.
Proof. solve_decision. Defined.

Definition is_nil (s : slice) : bool :=
  match s with nil_slice => true | mkSlice _ _ _ => false end.

(** [type NabiaRecord struct { RawData []byte; ContentType ContentType }],
    where [ContentType = string]. *)
Record NabiaRecord := mkRecord {
  RawData : slice;
  ContentType : string
}.

Global Instance NabiaRecord_eq_dec : EqDecision NabiaRecord.
Proof. solve_decision. Defined.

(** [NewNabiaRecord(data, ct)] only packs its arguments. *)
Definition NewNabiaRecord (data : slice) (ct : string) : NabiaRecord :=
  {| RawData := data; ContentType := ct |}.

(** The zero value [NabiaRecord{}]. *)
Definition zero_record : NabiaRecord :=
  {| RawData := nil_slice; ContentType := "" |}.

(** ** Errors *)

(** [syscall.Errno] values the operating system may answer with. *)
Inductive Errno := ENOENT | EACCES | EEXIST | EISDIR | ENOSPC | EIO.

Global Instance Errno_eq_dec : EqDecision Errno.
Proof. solve_decision. Defined.

Definition Errno_string (e : Errno) : string :=
  match e with
  | ENOENT => "no such file or directory"
  | EACCES => "permission denied"
  | EEXIST => "file exists"
  | EISDIR => "is a directory"
  | ENOSPC => "no space left on device"
  | EIO => "input/output error"
  end.

(** Go [error] values that flow through the engine: the ones the engine
    builds itself with [fmt.Errorf], the [*fs.PathError] of package
    [os] (also for a failed read or write of a file), and the errors of
    the gob decoder. *)
Inductive error :=
| Errorf (msg : string)
| PathError (op path : string) (errno : Errno)
| GobError (msg : string).

Global Instance error_eq_dec : EqDecision error.
Proof. solve_decision. Defined.

(** The [Error()] method. *)
Definition Error (e : error) : string :=
  match e with
  | Errorf msg => msg
  | PathError op path errno => op +:+ " " +:+ path +:+ ": " +:+ Errno_string errno
  | GobError msg => msg
  end.

(** [os.IsNotExist]. *)
Definition os_IsNotExist (e : error) : bool :=
  match e with
  | PathError _ _ ENOENT => true
  | _ => false
  end.

(** The specification's names for the errors that [Write] and [Read]
    build. *)
Definition EmptyKey : error := Errorf "key cannot be empty".
Definition NilPayload : error := Errorf "value cannot be nil".
Definition EmptyContentType : error := Errorf "Content-Type cannot be empty".
Definition InvalidContentType : error := Errorf "Content-Type is not valid".
Definition NotFound (key : string) : error :=
  Errorf ("key '" +:+ key +:+ "' doesn't exist").

(** ** Regular expressions (package regexp, as far as [Write] uses it) *)

Inductive regexp :=
| Void
| Eps
| Class (p : ascii → bool)
| Cat (r1 r2 : regexp)
| Alt (r1 r2 : regexp)
| Star (r : regexp).

(** [r+] *)
Definition Plus (r : regexp) : regexp := Cat r (Star r).

Definition Chr (c : ascii) : regexp := Class (λ d, bool_decide (d = c)).

Fixpoint nullable (r : regexp) : bool :=
  match r with
  | Void => false
  | Eps => true
  | Class _ => false
  | Cat r1 r2 => nullable r1 && nullable r2
  | Alt r1 r2 => nullable r1 || nullable r2
  | Star _ => true
  end.

(** Brzozowski derivative with respect to one character. *)
Fixpoint deriv (c : ascii) (r : regexp) : regexp :=
  match r with
  | Void => Void
  | Eps => Void
  | Class p => if p c then Eps else Void
  | Cat r1 r2 =>
      if nullable r1
      then Alt (Cat (deriv c r1) r2) (deriv c r2)
      else Cat (deriv c r1) r2
  | Alt r1 r2 => Alt (deriv c r1) (deriv c r2)
  | Star r1 => Cat (deriv c r1) (Star r1)
  end.

(** [MatchString] for a pattern that begins with [^]: the pattern is
    anchored at the start of the string and free at its end, so the
    string matches when one of its prefixes is in the language of [r]. *)
Fixpoint MatchString (r : regexp) (s : string) : bool :=
  nullable r ||
  match s with
  | EmptyString => false
  | String c s' => MatchString (deriv c r) s'
  end.

(** The class [[a-zA-Z0-9]]. Bytes above 127 are never in it. *)
Definition alnum (c : ascii) : bool :=
  let n := N_of_ascii c in
  ((97 <=? n) && (n <=? 122) || (65 <=? n) && (n <=? 90) ||
   (48 <=? n) && (n <=? 57))%N.

(** [pattern := `^[a-zA-Z0-9]+/[a-zA-Z0-9]+`] *)
Definition pattern : regexp :=
  Cat (Plus (Class alnum)) (Cat (Chr "/") (Plus (Class alnum))).

(** The language of a regular expression, to say what [MatchString]
    computes. *)
Inductive matches : regexp → string → Prop :=
| matches_Eps : matches Eps ""
| matches_Class p c : p c = true → matches (Class p) (String c "")
| matches_Cat r1 r2 s1 s2 :
    matches r1 s1 → matches r2 s2 → matches (Cat r1 r2) (s1 +:+ s2)
| matches_Alt_l r1 r2 s : matches r1 s → matches (Alt r1 r2) s
| matches_Alt_r r1 r2 s : matches r2 s → matches (Alt r1 r2) s
| matches_Star_nil r : matches (Star r) ""
| matches_Star_cons r s1 s2 :
    matches r s1 → matches (Star r) s2 → matches (Star r) (s1 +:+ s2).

(** Every character of the string is in the class [p]. *)
Fixpoint all_in (p : ascii → bool) (s : string) : bool :=
  match s with
  | EmptyString => true
  | String c s' => p c && all_in p s'
  end.

(** ** The store *)

(** [type NabiaDB struct { Records sync.Map; location string }].
    [Records] maps a key to a pointer to a record. Every pointer the
    engine stores is to a record no other pointer reaches ([Write]
    stores the address of its own parameter, [loadFromFile] the records
    the decoder allocated), and the engine never writes through one, so
    the map is kept by value. The payload of a record is a slice, whose
    backing array stays shared. *)
Record NabiaDB := mkDB {
  Records : gmap string NabiaRecord;
  location : string
}.

(** Replaces the [Records] field (what [ns.Records.Store] and
    [ns.Records.Delete] do to the receiver). *)
Definition with_Records (ns : NabiaDB) (m : gmap string NabiaRecord) : NabiaDB :=
  {| Records := m; location := location ns |}.

(** [_, ok := ns.Records.Load(key); return ok] *)
Definition Exists (ns : NabiaDB) (key : string) : bool :=
  match Records ns !! key with
  | Some _ => true
  | None => false
  end.

(** [Read]: the record [*record] (a copy of the struct) and a nil
    error, or the zero record and an error built by [fmt.Errorf]. *)
Definition Read (ns : NabiaDB) (key : string) : NabiaRecord * option error :=
  match Records ns !! key with
  | Some record => (record, None)
  | None => (zero_record, Some (Errorf ("key '" +:+ key +:+ "' doesn't exist")))
  end.

(** [Write]: the four checks in the order of the source, then
    [ns.Records.Store(key, &value)]. Returns the store after the call
    and the error. *)
Definition Write (ns : NabiaDB) (key : string) (value : NabiaRecord)
  : NabiaDB * option error :=
  if bool_decide (key = "") then
    (ns, Some (Errorf "key cannot be empty"))
  else if is_nil (RawData value) then
    (ns, Some (Errorf "value cannot be nil"))
  else if bool_decide (ContentType value = "") then
    (ns, Some (Errorf "Content-Type cannot be empty"))
  else
    let r := pattern in
    if negb (MatchString r (ContentType value)) then
      (ns, Some (Errorf "Content-Type is not valid"))
    else
      (with_Records ns (<[key := value]> (Records ns)), None).

(** [ns.Records.Delete(key)] *)
Definition Destroy (ns : NabiaDB) (key : string) : NabiaDB :=
  with_Records ns (delete key (Records ns)).

(** [Stop] returns at once. *)
Definition Stop (ns : NabiaDB) : NabiaDB := ns.

(** ** The world outside the store *)

(** What the engine reaches beyond its own [NabiaDB]: the heap that
    holds the backing arrays of slices, the files by name, the lines
    written through package [log], and [faults], the answers of the
    operating system to the coming system calls: [None] lets the call
    go through, [Some errno] makes it fail with [errno]. Once the list
    is used up, calls go through. *)
Record World := mkWorld {
  heap : list (list byte);
  files : gmap string (list byte);
  faults : list (option Errno);
  log : list string
}.

Definition set_heap (h : list (list byte)) (w : World) : World :=
  {| heap := h; files := files w; faults := faults w; log := log w |}.
Definition set_files (f : gmap string (list byte)) (w : World) : World :=
  {| heap := heap w; files := f; faults := faults w; log := log w |}.
Definition set_faults (fs : list (option Errno)) (w : World) : World :=
  {| heap := heap w; files := files w; faults := fs; log := log w |}.
Definition set_log (l : list string) (w : World) : World :=
  {| heap := heap w; files := files w; faults := faults w; log := l |}.

(** A computation either returns to its caller or ends the process
    ([os.Exit], which [log.Fatalf] calls). *)
Inductive Outcome (A : Type) :=
| Done (a : A) (w : World)
| Exit (code : nat) (w : World).
Arguments Done {A} a w.
Arguments Exit {A} code w.

Definition IO (A : Type) : Type := World → Outcome A.

Global Instance IO_ret : MRet IO := λ A a w, Done a w.
Global Instance IO_bind : MBind IO := λ A B f m w,
  match m w with
  | Done a w' => f a w'
  | Exit code w' => Exit code w'
  end.

Definition get_world : IO World := λ w, Done w w.

(** The bytes a slice shows, read through the heap. *)
Definition slice_bytes (h : list (list byte)) (s : slice) : list byte :=
  match s with
  | nil_slice => []
  | mkSlice a off len => take len (drop off (default [] (h !! a)))
  end.

(** [make([]byte, ...)] filled with [bs]: a new backing array. *)
Definition alloc_bytes (bs : list byte) : IO slice := λ w,
  Done (mkSlice (length (heap w)) 0 (length bs)) (set_heap (heap w ++ [bs]) w).

(** [NewNabiaString(s)]: [[]byte(s)] is a new, non-nil slice. *)
Definition NewNabiaString (s : string) : IO NabiaRecord :=
  data ← alloc_bytes (list_byte_of_string s);
  mret {| RawData := data; ContentType := "text/plain; charset=UTF-8" |}.

(** [log.Fatalf]: one line to the log, then [os.Exit(1)]. *)
Definition log_Fatalf {A} (line : string) : IO A := λ w,
  Exit 1 (set_log (log w ++ [line]) w).

(** *** Package os *)

(** The operating system's answer to the next system call. *)
Definition next_fault : IO (option Errno) := λ w,
  match faults w with
  | [] => Done None w
  | f :: fs => Done f (set_faults fs w)
  end.

(** [os.Stat(name)], its [FileInfo] dropped. *)
Definition os_Stat (name : string) : IO (option error) :=
  f ← next_fault;
  match f with
  | Some errno => mret (Some (PathError "stat" name errno))
  | None =>
      w ← get_world;
      match files w !! name with
      | Some _ => mret None
      | None => mret (Some (PathError "stat" name ENOENT))
      end
  end.

(** An open [*os.File] is known by its name; what [os.Create] returns
    writes at the end of the file it has just emptied. *)
Definition File := string.

(** [os.Create(name)]: creates the file or truncates it. *)
Definition os_Create (name : string) : IO (error + File) :=
  f ← next_fault;
  match f with
  | Some errno => mret (inl (PathError "open" name errno))
  | None => λ w, Done (inr name) (set_files (<[name := []]> (files w)) w)
  end.

(** [os.Open(name)] *)
Definition os_Open (name : string) : IO (error + File) :=
  f ← next_fault;
  match f with
  | Some errno => mret (inl (PathError "open" name errno))
  | None =>
      w ← get_world;
      match files w !! name with
      | Some _ => mret (inr name)
      | None => mret (inl (PathError "open" name ENOENT))
      end
  end.

(** [file.Write(p)]: all of [p] goes to the end of the file, or the
    call fails and nothing is written. *)
Definition File_Write (file : File) (p : list byte) : IO (option error) :=
  f ← next_fault;
  match f with
  | Some errno => mret (Some (PathError "write" file errno))
  | None => λ w,
      Done None (set_files (<[file := default [] (files w !! file) ++ p]> (files w)) w)
  end.

(** Reading a file to its end. *)
Definition File_ReadAll (file : File) : IO (error + list byte) :=
  f ← next_fault;
  match f with
  | Some errno => mret (inl (PathError "read" file errno))
  | None => w ← get_world; mret (inr (default [] (files w !! file)))
  end.

(** *** Package bufio *)

Definition defaultBufSize : nat := 4096.

(** [bufio.Writer]: the file below, the bytes buffered, the sticky
    error. *)
Record Writer := mkWriter {
  wr : File;
  buf : list byte;
  werr : option error
}.

Definition bufio_NewWriter (file : File) : Writer :=
  {| wr := file; buf := []; werr := None |}.

Definition Buffered (b : Writer) : nat := length (buf b).
Definition Available (b : Writer) : nat := defaultBufSize - length (buf b).

(** [Writer.Flush] *)
Definition bufio_Flush (b : Writer) : IO (Writer * option error) :=
  match werr b with
  | Some e => mret (b, Some e)
  | None =>
      if Buffered b =? 0 then mret (b, None)
      else
        r ← File_Write (wr b) (buf b);
        match r with
        | Some e => mret ({| wr := wr b; buf := buf b; werr := Some e |}, Some e)
        | None => mret ({| wr := wr b; buf := []; werr := None |}, None)
        end
  end.

(** The loop of [Writer.Write]:
    [for len(p) > b.Available() && b.err == nil]. It runs at most
    twice; [fuel] bounds it. Returns the writer and what is left of
    [p]. *)
Fixpoint bufio_Write_loop (fuel : nat) (b : Writer) (p : list byte)
  : IO (Writer * list byte) :=
  match fuel with
  | 0 => mret (b, p)
  | S fuel' =>
      if (Available b <? length p) && bool_decide (werr b = None) then
        if Buffered b =? 0 then
          (* large write, empty buffer: write directly from p *)
          r ← File_Write (wr b) p;
          match r with
          | Some e =>
              bufio_Write_loop fuel' {| wr := wr b; buf := buf b; werr := Some e |} p
          | None => bufio_Write_loop fuel' b []
          end
        else
          let n := Available b in
          '(b', _) ← bufio_Flush {| wr := wr b; buf := buf b ++ take n p; werr := werr b |};
          bufio_Write_loop fuel' b' (drop n p)
      else mret (b, p)
  end.

(** [Writer.Write] *)
Definition bufio_Write (b : Writer) (p : list byte) : IO (Writer * option error) :=
  '(b', p') ← bufio_Write_loop (S (S (length p))) b p;
  match werr b' with
  | Some e => mret (b', Some e)
  | None => mret ({| wr := wr b'; buf := buf b' ++ p'; werr := None |}, None)
  end.

(** *** Package encoding/gob *)

(** What the encoder sees of a record when it follows the pointer and
    the slice: the payload ([None] for a nil slice) and the content
    type. *)
Definition slice_value (h : list (list byte)) (s : slice) : option (list byte) :=
  match s with
  | nil_slice => None
  | mkSlice _ _ _ => Some (slice_bytes h s)
  end.

Definition record_value (h : list (list byte)) (r : NabiaRecord)
  : option (list byte) * string :=
  (slice_value h (RawData r), ContentType r).

(** The gob wire format of a [map[string]*NabiaRecord] is the library's,
    not the engine's: the engine is embedded over any encoder, which
    turns the map into the messages it writes one by one, and any
    decoder, which reads a map back from bytes or fails. (gob sends the
    entries of a map in the order the map is ranged over, which Go does
    not fix: [gob_Encode] stands for the bytes of one run, and nothing
    below compares the bytes of two saves.) *)
Class Gob := {
  gob_Encode : gmap string (option (list byte) * string) → list (list byte);
  gob_Decode : list byte → error + gmap string (option (list byte) * string)
}.

(** The decoder allocates the payloads it decodes. *)
Definition alloc_slice (v : option (list byte)) : IO slice :=
  match v with
  | None => mret nil_slice
  | Some bs => alloc_bytes bs
  end.

Fixpoint alloc_records (l : list (string * (option (list byte) * string)))
  : IO (list (string * NabiaRecord)) :=
  match l with
  | [] => mret []
  | (k, (v, ct)) :: l' =>
      s ← alloc_slice v;
      rest ← alloc_records l';
      mret ((k, {| RawData := s; ContentType := ct |}) :: rest)
  end.

Section Engine.
Context `{Gob}.

(** [encoder.Encode(data)] on a buffered writer: one [Write] for each
    message, up to the first error. *)
Fixpoint Encoder_write (b : Writer) (msgs : list (list byte))
  : IO (Writer * option error) :=
  match msgs with
  | [] => mret (b, None)
  | m :: ms =>
      '(b', e) ← bufio_Write b m;
      match e with
      | Some err => mret (b', Some err)
      | None => Encoder_write b' ms
      end
  end.

Definition Encoder_Encode (b : Writer) (data : gmap string NabiaRecord)
  : IO (Writer * option error) :=
  w ← get_world;
  Encoder_write b (gob_Encode (record_value (heap w) <$> data)).

(** [decoder.Decode(&data)], with [data] a new empty map, on a buffered
    reader of [file]. *)
Definition Decoder_Decode (file : File) : IO (error + gmap string NabiaRecord) :=
  r ← File_ReadAll file;
  match r with
  | inl err => mret (inl err)
  | inr bytes =>
      match gob_Decode bytes with
      | inl err => mret (inl err)
      | inr values =>
          l ← alloc_records (map_to_list values);
          mret (inr (list_to_map l))
      end
  end.

(** ** Snapshots *)

(** [saveToFile]. The two deferred calls run after the result of
    [encoder.Encode] is fixed: [writer.Flush()], whose error is dropped,
    then [file.Close()]. *)
Definition saveToFile (ns : NabiaDB) (filename : string) : IO (option error) :=
  r ← os_Create filename;
  match r with
  | inl err => mret (Some err)
  | inr file =>
      let writer := bufio_NewWriter file in
      (* Convert sync.Map to a regular map for encoding *)
      let data := map_fold (λ key value data, <[key := value]> data) ∅ (Records ns) in
      '(writer', err) ← Encoder_Encode writer data;
      _ ← bufio_Flush writer';
      mret err
  end.

(** [loadFromFile]: returns the store after the call and the error. *)
Definition loadFromFile (ns : NabiaDB) (filename : string)
  : IO (NabiaDB * option error) :=
  r ← os_Open filename;
  match r with
  | inl err => mret (ns, Some err)
  | inr file =>
      d ← Decoder_Decode file;
      match d with
      | inl err => mret (ns, Some err)
      | inr data =>
          (* Convert the regular map back to a sync.Map *)
          mret (with_Records ns
                  (map_fold (λ key value m, <[key := value]> m) (Records ns) data),
                None)
      end
  end.

(** [checkOrCreateFile] *)
Definition checkOrCreateFile (location : string) : IO (bool * option error) :=
  st ← os_Stat location;
  match st with
  | None => mret (true, None)
  | Some err =>
      if os_IsNotExist err then
        r ← os_Create location;
        match r with
        | inl err => mret (false, Some err)
        | inr file => mret (false, None)
        end
      else mret (false, Some err)
  end.

(** [NewNabiaDB]: [(nil, err)], or [(ndb, nil)], or the process ends in
    [log.Fatalf]. *)
Definition NewNabiaDB (location : string) : IO (option NabiaDB * option error) :=
  '(exists_, err) ← checkOrCreateFile location;
  match err with
  | Some e => mret (None, Some e)
  | None =>
      let ndb := {| Records := ∅; location := location |} in
      if exists_ : bool then
        '(ndb', _) ← loadFromFile ndb location;
        mret (Some ndb', None)
      else
        err ← saveToFile ndb location;
        match err with
        | Some e => log_Fatalf ("Failed to save to file: " +:+ Error e)
        | None => mret (Some ndb, None)
        end
  end.

End Engine.

(** ** Callers *)

(** What a caller can do to a record it holds (the value [Read]
    returned, say): assign a field, or write one byte of the payload in
    place. *)
Inductive mutation :=
| SetContentType (ct : string)
| SetRawData (s : slice)
| SetByte (i : nat) (b : byte).

(** [s[i] = b]. An index out of range panics, which ends the process
    with status 2. *)
Definition slice_set (s : slice) (i : nat) (b : byte) : IO unit := λ w,
  match s with
  | nil_slice => Exit 2 w
  | mkSlice a off len =>
      if i <? len then
        Done () (set_heap (<[a := <[off + i := b]> (default [] (heap w !! a))]> (heap w)) w)
      else Exit 2 w
  end.

Definition mutate (m : mutation) (r : NabiaRecord) : IO NabiaRecord :=
  match m with
  | SetContentType ct => mret {| RawData := RawData r; ContentType := ct |}
  | SetRawData s => mret {| RawData := s; ContentType := ContentType r |}
  | SetByte i b => _ ← slice_set (RawData r) i b; mret r
  end.




(** ** A small codec *)

(** An instance of [Gob] to run the engine on concrete files. Like gob
    it sends no zero-valued field: an empty payload is sent as no
    payload and comes back as nil. A number [n] is [n] bytes [01] and a
    byte [00]. A snapshot is the byte [4e], the number of entries and
    the entries; an entry is the length of the key, the key, the length
    of the payload, the payload, the length of the content type and the
    content type. It is sent as two messages, the first byte and the
    rest. *)
Module SimpleGob.

Definition put_nat (n : nat) : list byte := replicate n x01 ++ [x00].

Definition put_bytes (bs : list byte) : list byte := put_nat (length bs) ++ bs.

Definition put_entry (e : string * (option (list byte) * string)) : list byte :=
  let '(k, (v, ct)) := e in
  put_bytes (list_byte_of_string k) ++ put_bytes (default [] v) ++
  put_bytes (list_byte_of_string ct).

Definition Encode (m : gmap string (option (list byte) * string)) : list (list byte) :=
  [ [x4e]; put_nat (size m) ++ concat (put_entry <$> map_to_list m) ].

Fixpoint get_nat (l : list byte) : option (nat * list byte) :=
  match l with
  | x00 :: l' => Some (0, l')
  | x01 :: l' => match get_nat l' with
                 | Some (n, rest) => Some (S n, rest)
                 | None => None
                 end
  | _ => None
  end.

Definition get_bytes (l : list byte) : option (list byte * list byte) :=
  match get_nat l with
  | Some (n, rest) =>
      if n <=? length rest then Some (take n rest, drop n rest) else None
  | None => None
  end.

Definition get_entry (l : list byte)
  : option ((string * (option (list byte) * string)) * list byte) :=
  match get_bytes l with
  | Some (k, l1) =>
      match get_bytes l1 with
      | Some (v, l2) =>
          match get_bytes l2 with
          | Some (ct, l3) =>
              Some ((string_of_list_byte k,
                     (match v with [] => None | _ => Some v end,
                      string_of_list_byte ct)), l3)
          | None => None
          end
      | None => None
      end
  | None => None
  end.

Fixpoint get_entries (n : nat) (l : list byte)
  : option (list (string * (option (list byte) * string))) :=
  match n with
  | 0 => Some []
  | S n' =>
      match get_entry l with
      | Some (e, rest) =>
          match get_entries n' rest with
          | Some es => Some (e :: es)
          | None => None
          end
      | None => None
      end
  end.

Definition Decode (l : list byte)
  : error + gmap string (option (list byte) * string) :=
  match l with
  | [] => inl (GobError "EOF")
  | x4e :: l' =>
      match get_nat l' with
      | Some (n, rest) =>
          match get_entries n rest with
          | Some es => inr (list_to_map es)
          | None => inl (GobError "unexpected EOF")
          end
      | None => inl (GobError "unexpected EOF")
      end
  | _ => inl (GobError "gob: encoded unsigned integer out of range")
  end.

Definition codec : Gob := {| gob_Encode := Encode; gob_Decode := Decode |}.

End SimpleGob.

(** ** The vocabulary of the specification *)

(** The Validator rules of the specification, in its words: the key is
    non-empty, the payload is not absent, the media type is non-empty
    and matches the pattern. *)
Definition valid (key : string) (r : NabiaRecord) : Prop :=
  key ≠ "" ∧ RawData r ≠ nil_slice ∧ ContentType r ≠ "" ∧
  MatchString pattern (ContentType r) = true.

Global Instance valid_dec key r : Decision (valid key r).
Proof. unfold valid. apply _. Defined.

(** Every record inside the store satisfies the Validator rules. *)
Definition store_valid (ns : NabiaDB) : Prop :=
  ∀ key r, Records ns !! key = Some r → valid key r.

(** What is on the wire for a record: the payload bytes and the media
    type. A nil payload and an empty one both show no bytes. *)
Definition wire (v : option (list byte) * string) : list byte * string :=
  (default [] v.1, v.2).

(** A computation that, from every world, returns to its caller, writes
    nothing to the log and removes no file. *)
Definition calm {A} (m : IO A) : Prop :=
  ∀ w, ∃ a w', m w = Done a w' ∧ log w' = log w ∧
               dom (files w) ⊆ dom (files w').

(** The operations of the store, one constructor for each. *)
Inductive operation :=
| OpWrite (key : string) (value : NabiaRecord)
| OpRead (key : string)
| OpExists (key : string)
| OpDestroy (key : string)
| OpSave (filename : string)
| OpLoad (filename : string).

Section Operations.
Context `{Gob}.

(** The codec reads back what it wrote for [m], byte for byte. *)
Definition gob_round_trips (m : gmap string (option (list byte) * string)) : Prop :=
  ∃ m', gob_Decode (concat (gob_Encode m)) = inr m' ∧ wire <$> m' = wire <$> m.

(** The store an operation leaves behind. *)
Definition run_op (o : operation) (ns : NabiaDB) : IO NabiaDB :=
  match o with
  | OpWrite key value => mret (Write ns key value).1
  | OpRead key => let _ := Read ns key in mret ns
  | OpExists key => let _ := Exists ns key in mret ns
  | OpDestroy key => mret (Destroy ns key)
  | OpSave filename => _ ← saveToFile ns filename; mret ns
  | OpLoad filename => '(ns', _) ← loadFromFile ns filename; mret ns'
  end.

End Operations.

(** ** Stores and worlds to run the engine on *)

Definition empty_world : World :=
  {| heap := []; files := ∅; faults := []; log := [] |}.

Definition empty_db (location : string) : NabiaDB :=
  {| Records := ∅; location := location |}.

(** Two arrays, holding [v1] and [v2], as a caller has after
    [[]byte("v1")] and [[]byte("v2")]. *)
Definition world_v1 : World :=
  {| heap := [list_byte_of_string "v1"; list_byte_of_string "v2"];
     files := ∅; faults := []; log := [] |}.

Definition record_v1 : NabiaRecord :=
  {| RawData := mkSlice 0 0 2; ContentType := "text/plain" |}.

Definition record_v2 : NabiaRecord :=
  {| RawData := mkSlice 1 0 2; ContentType := "application/json" |}.

Definition db_A : NabiaDB :=
  {| Records := {[ "A" := record_v1 ]}; location := "nabia.db" |}.

(** Arrays [v1], the empty array and [v2]; a store with a record on
    each. *)
Definition world_three : World :=
  {| heap := [list_byte_of_string "v1"; []; list_byte_of_string "v2"];
     files := ∅; faults := []; log := [] |}.

Definition db_three : NabiaDB :=
  {| Records := {[ "A" := record_v1;
                   "E" := {| RawData := mkSlice 1 0 0; ContentType := "text/plain" |};
                   "J" := {| RawData := mkSlice 2 0 2; ContentType := "application/json" |} ]};
     location := "nabia.db" |}.

(** A target that exists and is empty: no snapshot can be decoded from
    it. *)
Definition world_corrupt : World :=
  {| heap := []; files := {[ "nabia.db" := [] ]}; faults := []; log := [] |}.

(** A target holding the snapshot of one record with the empty key, no
    payload and no media type. *)
Definition world_invalid_snapshot : World :=
  {| heap := [];
     files := {[ "nabia.db" := concat (SimpleGob.Encode {[ "" := (None, "") ]}) ]};
     faults := []; log := [] |}.

(** No target yet; the operating system answers [os.Stat], lets the
    first [os.Create] through and refuses the second (as it does when
    the file was created with a mode that keeps its owner from writing
    to it). *)
Definition world_second_create_fails : World :=
  {| heap := []; files := ∅; faults := [None; None; Some EACCES]; log := [] |}.


(** A target holding the snapshot of one record. *)
Definition world_saved : World :=
  {| heap := [];
     files := {[ "nabia.db" :=
       concat (SimpleGob.Encode
                 {[ "A" := (Some (list_byte_of_string "v1"), "text/plain") ]}) ]};
     faults := []; log := [] |}.

(** A payload larger than the buffer of the writer, and a disk that
    takes the file but not the first write to it. *)
Definition world_disk_full : World :=
  {| heap := [replicate 5000 x00]; files := ∅;
     faults := [None; Some ENOSPC]; log := [] |}.

Definition db_big : NabiaDB :=
  {| Records := {[ "A" := {| RawData := mkSlice 0 0 5000; ContentType := "text/plain" |} ]};
     location := "nabia.db" |}.

(** A directory that cannot be searched: [os.Stat] is refused. *)
Definition world_stat_refused : World :=
  {| heap := []; files := ∅; faults := [Some EACCES]; log := [] |}.

(** A target that exists and cannot be opened. *)
Definition world_open_refused : World :=
  {| heap := []; files := {[ "nabia.db" := [] ]}; faults := [Some EACCES]; log := [] |}.

(** No target, and a directory that takes no new file. *)
Definition world_create_refused : World :=
  {| heap := []; files := ∅; faults := [None; Some EACCES]; log := [] |}.

(** ** The earlier engine *)

(** The repository also holds an earlier engine, with the same
    primitives on a store that has no location: its [Write] checks
    nothing. [NabiaRecord], [NewNabiaString] and [NewNabiaRecord] are
    the same as above. *)
Module Draft.

(** [type NabiaDB struct { Records sync.Map }] *)
Record NabiaDB := mkDB {
  Records : gmap string NabiaRecord
}.

(** [return &NabiaDB{}] *)
Definition NewNabiaDB : NabiaDB := {| Records := ∅ |}.

Definition Exists (ns : NabiaDB) (key : string) : bool :=
  match Records ns !! key with
  | Some _ => true
  | None => false
  end.

Definition Read (ns : NabiaDB) (key : string) : NabiaRecord * option error :=
  match Records ns !! key with
  | Some record => (record, None)
  | None => (zero_record, Some (Errorf ("key '" +:+ key +:+ "' doesn't exist")))
  end.

(** [ns.Records.Store(key, &value)], whatever the key and the value. *)
Definition Write (ns : NabiaDB) (key : string) (value : NabiaRecord) : NabiaDB :=
  {| Records := <[key := value]> (Records ns) |}.

Definition Destroy (ns : NabiaDB) (key : string) : NabiaDB :=
  {| Records := delete key (Records ns) |}.

End Draft.

(** The store of the earlier engine with the records of [ns]. *)
Definition as_draft (ns : NabiaDB) : Draft.NabiaDB :=
  {| Draft.Records := Records ns |}.

(** ** More of the vocabulary *)

(** What a computation may change when it works on the file [f] only:
    the heap, the log and every other file stay. *)
Definition frame (f : string) (w w' : World) : Prop :=
  heap w' = heap w ∧ log w' = log w ∧
  ∀ g, g ≠ f → files w' !! g = files w !! g.

(** The slice lies within an array of the heap. *)
Definition in_heap (h : list (list byte)) (s : slice) : Prop :=
  match s with
  | nil_slice => True
  | mkSlice a off len => ∃ arr, h !! a = Some arr ∧ off + len ≤ length arr
  end.

(** A disk that takes the file and refuses to write to it. *)
Definition world_write_refused : World :=
  {| heap := [list_byte_of_string "v1"; list_byte_of_string "v2"];
     files := {[ "nabia.db" := list_byte_of_string "old" ]};
     faults := [None; Some ENOSPC]; log := [] |}.

(** A store and a snapshot that share the key [A]. *)
Definition db_AB : NabiaDB :=
  {| Records := {[ "A" := record_v1; "B" := record_v2 ]}; location := "nabia.db" |}.

Definition world_saved_v1 : World :=
  {| heap := [list_byte_of_string "v1"; list_byte_of_string "v2"];
     files := {[ "nabia.db" :=
       concat (SimpleGob.Encode
                 {[ "A" := (Some (list_byte_of_string "new"), "application/json") ]}) ]};
     faults := []; log := [] |}.

(** ** The store with its pointers *)

(** In the source the map holds pointers to records. [Ref] is the
    engine with the pointers kept: the record structs live in a memory
    by address, and the map takes a key to the address of its record.
    A variable in which a caller keeps a record is a struct of the same
    memory. The arrays of the payloads live in the heap as before. *)
Module Ref.

(** [type NabiaDB struct { Records sync.Map; location string }], the
    values of [Records] being of type [*NabiaRecord]. *)
Record NabiaDB := mkDB {
  Records : gmap string nat;
  location : string
}.

(** A struct at a new address holding [value]: what [&value] is for
    the parameter [value] of [Write], and what [r, err := ns.Read(key)]
    declares. Returns the address. *)
Definition new_struct (value : NabiaRecord) (structs : list NabiaRecord)
  : nat * list NabiaRecord :=
  (length structs, structs ++ [value]).

Definition Exists (ns : NabiaDB) (key : string) : bool :=
  match Records ns !! key with
  | Some _ => true
  | None => false
  end.

(** [return *record, nil], with [record] the pointer found in the
    map: the struct behind the pointer is copied out. (The store holds no pointer to
    nowhere; the zero record stands for what a load from one would
    give.) *)
Definition Read (ns : NabiaDB) (structs : list NabiaRecord) (key : string)
  : NabiaRecord * option error :=
  match Records ns !! key with
  | Some record => (default zero_record (structs !! record), None)
  | None => (zero_record, Some (Errorf ("key '" +:+ key +:+ "' doesn't exist")))
  end.

(** [Write], with [ns.Records.Store(key, &value)] storing the address
    of the parameter. Returns the store, the memory and the error. *)
Definition Write (ns : NabiaDB) (structs : list NabiaRecord)
    (key : string) (value : NabiaRecord)
  : NabiaDB * list NabiaRecord * option error :=
  if bool_decide (key = "") then
    (ns, structs, Some (Errorf "key cannot be empty"))
  else if is_nil (RawData value) then
    (ns, structs, Some (Errorf "value cannot be nil"))
  else if bool_decide (ContentType value = "") then
    (ns, structs, Some (Errorf "Content-Type cannot be empty"))
  else
    let r := pattern in
    if negb (MatchString r (ContentType value)) then
      (ns, structs, Some (Errorf "Content-Type is not valid"))
    else
      let '(p, structs') := new_struct value structs in
      ({| Records := <[key := p]> (Records ns); location := location ns |},
       structs', None).

Definition Destroy (ns : NabiaDB) (key : string) : NabiaDB :=
  {| Records := delete key (Records ns); location := location ns |}.

(** Every pointer of the store is the address of a struct. *)
Definition wf (ns : NabiaDB) (structs : list NabiaRecord) : Prop :=
  ∀ key p, Records ns !! key = Some p → p < length structs.

(** What a caller does to the record in its variable [x]:
    [x.ContentType = ct], [x.RawData = s], [x.RawData[i] = b]. *)
Definition mutate_var (x : nat) (m : mutation) (structs : list NabiaRecord)
  : IO (list NabiaRecord) :=
  match structs !! x with
  | Some r => r' ← mutate m r; mret (<[x := r']> structs)
  | None => λ w, Exit 2 w
  end.


End Ref.

(** The store by value that a store with pointers stands for: each key
    with the struct its pointer leads to. *)
Definition deref (ns : Ref.NabiaDB) (structs : list NabiaRecord) : NabiaDB :=
  {| Records := omap (λ p, structs !! p) (Ref.Records ns);
     location := Ref.location ns |}.



(** The target as [saveToFile] leaves it for the store [db_three]. *)
Definition world_three_saved : World :=
  {| heap := heap world_three;
     files := {[ "nabia.db" :=
       concat (SimpleGob.Encode (record_value (heap world_three) <$> Records db_three)) ]};
     faults := []; log := [] |}.

(** * Properties *)

(** Unfolds the plumbing of [IO]. *)
Ltac io_unfold := unfold mbind, mret, IO_bind, IO_ret, get_world in *.

(** ** What the pattern accepts *)

Lemma append_nil_l s : "" +:+ s = s.
Proof. reflexivity. Qed.

Lemma append_cons c s t : String c s +:+ t = String c (s +:+ t).
Proof. reflexivity. Qed.

Lemma append_empty_r s : s +:+ "" = s.
Proof.
  induction s as [|c s IH]; [done|]. by rewrite append_cons, IH.
Qed.

Lemma append_assoc s1 s2 s3 : (s1 +:+ s2) +:+ s3 = s1 +:+ s2 +:+ s3.
Proof.
  induction s1 as [|c s1 IH]; [done|]. by rewrite !append_cons, IH.
Qed.

Lemma append_eq_empty s1 s2 : s1 +:+ s2 = "" → s1 = "" ∧ s2 = "".
Proof.
  destruct s1; [by rewrite append_nil_l|]. rewrite append_cons. discriminate.
Qed.

Lemma append_eq_String s1 s2 c s :
  s1 +:+ s2 = String c s →
  (s1 = "" ∧ s2 = String c s) ∨ (∃ s1', s1 = String c s1' ∧ s = s1' +:+ s2).
Proof.
  destruct s1 as [|c1 s1]; [rewrite append_nil_l; by left|].
  rewrite append_cons. intros [= -> <-]. right. by exists s1.
Qed.

Lemma nullable_matches r : nullable r = true ↔ matches r "".
Proof.
  split.
  - induction r; simpl; intros Hn; try done.
    + constructor.
    + apply andb_prop in Hn as [H1 H2].
      change "" with ("" +:+ ""). constructor; auto.
    + apply orb_prop in Hn as [H1|H2];
        [apply matches_Alt_l|apply matches_Alt_r]; auto.
    + constructor.
  - intros Hm. remember "" as s eqn:Es. induction Hm; simpl; try done.
    + apply append_eq_empty in Es as [-> ->]. by rewrite IHHm1, IHHm2.
    + by rewrite IHHm.
    + rewrite IHHm by done. apply orb_true_r.
Qed.

Lemma matches_deriv c r s : matches (deriv c r) s ↔ matches r (String c s).
Proof.
  split.
  - revert s. induction r as [| |p|r1 IH1 r2 IH2|r1 IH1 r2 IH2|r IH];
      simpl; intros s Hm.
    + inversion Hm.
    + inversion Hm.
    + destruct (p c) eqn:Hp; inversion Hm; subst. by constructor.
    + assert (Hcat : matches (Cat (deriv c r1) r2) s → matches (Cat r1 r2) (String c s)).
      { intros Hm'. inversion Hm'; subst.
        change (String c (s1 +:+ s2)) with (String c s1 +:+ s2).
        constructor; auto. }
      destruct (nullable r1) eqn:Hn; [|auto].
      inversion Hm; subst; [auto|].
      change (String c s) with ("" +:+ String c s).
      constructor; [by apply nullable_matches|auto].
    + inversion Hm; subst; [apply matches_Alt_l|apply matches_Alt_r]; auto.
    + inversion Hm; subst.
      change (String c (s1 +:+ s2)) with (String c s1 +:+ s2).
      constructor; auto.
  - intros Hm. remember (String c s) as cs eqn:E. revert s E.
    induction Hm as [|p c0 Hp|r1 r2 s1 s2 Hm1 IH1 Hm2 IH2|r1 r2 s0 Hm IH
                    |r1 r2 s0 Hm IH| |r s1 s2 Hm1 IH1 Hm2 IH2];
      intros s E; simpl.
    + discriminate.
    + injection E as -> <-. rewrite Hp. constructor.
    + apply append_eq_String in E as [[-> ->]|(s1' & -> & ->)].
      * apply nullable_matches in Hm1. rewrite Hm1.
        apply matches_Alt_r. auto.
      * assert (matches (Cat (deriv c r1) r2) (s1' +:+ s2))
          by (constructor; auto).
        destruct (nullable r1); [by apply matches_Alt_l|done].
    + apply matches_Alt_l. auto.
    + apply matches_Alt_r. auto.
    + discriminate.
    + apply append_eq_String in E as [[-> ->]|(s1' & -> & ->)].
      * auto.
      * constructor; auto.
Qed.

(** [MatchString r s] holds when a prefix of [s] is in the language of
    [r]. *)
Lemma MatchString_prefix r s :
  MatchString r s = true ↔ ∃ p q, s = p +:+ q ∧ matches r p.
Proof.
  revert r. induction s as [|c s IH]; intros r; simpl.
  - rewrite orb_false_r, nullable_matches. split.
    + intros Hm. by exists "", "".
    + intros (p & q & E & Hm). symmetry in E.
      apply append_eq_empty in E as [-> ->]. done.
  - split.
    + intros Hm. apply orb_prop in Hm as [Hn|Hd].
      * exists "", (String c s). split; [done|]. by apply nullable_matches.
      * apply IH in Hd as (p & q & -> & Hm). exists (String c p), q.
        split; [done|]. by apply matches_deriv.
    + intros (p & q & E & Hm). symmetry in E.
      apply append_eq_String in E as [[-> ->]|(p' & -> & ->)].
      * apply nullable_matches in Hm. by rewrite Hm.
      * apply orb_true_iff. right. apply IH. exists p', q.
        split; [done|]. by apply matches_deriv.
Qed.

Lemma matches_Star_Class p s : matches (Star (Class p)) s ↔ all_in p s = true.
Proof.
  split.
  - intros Hm. remember (Star (Class p)) as r eqn:Er.
    induction Hm; try discriminate; [done|].
    injection Er as ->. inversion Hm1; subst.
    rewrite append_cons, append_nil_l. simpl.
    rewrite IHHm2 by done. by rewrite H0.
  - induction s as [|c s IH]; simpl; intros Ha; [constructor|].
    apply andb_prop in Ha as [Hc Hs].
    change (String c s) with (String c "" +:+ s).
    constructor; [by constructor|auto].
Qed.

Lemma matches_Plus_Class p s :
  matches (Plus (Class p)) s ↔ s ≠ "" ∧ all_in p s = true.
Proof.
  unfold Plus. split.
  - intros Hm. inversion Hm as [| |r1 r2 s1 s2 H1 H2| | | |]; subst.
    inversion H1; subst. apply matches_Star_Class in H2.
    rewrite append_cons, append_nil_l. simpl.
    split; [done|]. by rewrite H0, H2.
  - intros [Hne Ha]. destruct s as [|c s]; [done|]. simpl in Ha.
    apply andb_prop in Ha as [Hc Hs].
    change (String c s) with (String c "" +:+ s).
    constructor; [by constructor|by apply matches_Star_Class].
Qed.

(** The strings [Write] accepts as content type: one or more letters
    or digits, a slash, one or more letters or digits, and then
    anything. *)
Lemma MatchString_pattern s :
  MatchString pattern s = true ↔
  ∃ a b rest, s = a +:+ "/" +:+ b +:+ rest ∧
              a ≠ "" ∧ all_in alnum a = true ∧
              b ≠ "" ∧ all_in alnum b = true.
Proof.
  rewrite MatchString_prefix. unfold pattern. split.
  - intros (p & q & -> & Hm).
    inversion Hm as [| |r1 r2 a s2 Ha Hrest| | | |]; subst.
    inversion Hrest as [| |r1 r2 sl b Hsl Hb| | | |]; subst.
    inversion Hsl as [|p' c Hc| | | | |]; subst.
    apply bool_decide_eq_true in Hc as ->.
    apply matches_Plus_Class in Ha as [? ?].
    apply matches_Plus_Class in Hb as [? ?].
    exists a, b, q. split; [|done].
    by rewrite !append_assoc.
  - intros (a & b & rest & -> & Ha & Ha' & Hb & Hb').
    exists (a +:+ "/" +:+ b), rest. split; [by rewrite !append_assoc|].
    constructor; [by apply matches_Plus_Class|].
    change ("/" +:+ b) with (String "/" "" +:+ b).
    constructor; [constructor; by apply bool_decide_eq_true|].
    by apply matches_Plus_Class.
Qed.

(** ** Write and the Validator rules *)

Lemma Write_valid ns key value :
  valid key value →
  Write ns key value = (with_Records ns (<[key := value]> (Records ns)), None).
Proof.
  intros (Hk & Hd & Hc & Hm). unfold Write.
  rewrite bool_decide_eq_false_2 by done.
  destruct (RawData value); [done|]. simpl.
  rewrite bool_decide_eq_false_2 by done.
  by rewrite Hm.
Qed.

Lemma Write_cases ns key value :
  (valid key value ∧
   Write ns key value = (with_Records ns (<[key := value]> (Records ns)), None)) ∨
  (¬ valid key value ∧
   ∃ e, Write ns key value = (ns, Some e) ∧
        e ∈ [EmptyKey; NilPayload; EmptyContentType; InvalidContentType]).
Proof.
  destruct (decide (valid key value)) as [Hv|Hv].
  - left. split; [done|]. by apply Write_valid.
  - right. split; [done|]. unfold Write, valid in *.
    case_bool_decide; [eexists; split; [done|]; set_solver|].
    destruct (RawData value) eqn:Hd; simpl; [eexists; split; [done|]; set_solver|].
    case_bool_decide; [eexists; split; [done|]; set_solver|].
    destruct (MatchString pattern (ContentType value)) eqn:Hm; simpl.
    + exfalso. apply Hv. done.
    + eexists; split; [done|]; set_solver.
Qed.

(** C6. [Write] checks the rules in the order key non-empty, payload
    not nil, media type non-empty, media type matching the pattern, and
    the first rule that fails decides the error; when none fails the
    call succeeds. *)
Theorem Write_validation_order ns key value :
  (key = "" → (Write ns key value).2 = Some EmptyKey) ∧
  (key ≠ "" → RawData value = nil_slice →
   (Write ns key value).2 = Some NilPayload) ∧
  (key ≠ "" → RawData value ≠ nil_slice → ContentType value = "" →
   (Write ns key value).2 = Some EmptyContentType) ∧
  (key ≠ "" → RawData value ≠ nil_slice → ContentType value ≠ "" →
   MatchString pattern (ContentType value) = false →
   (Write ns key value).2 = Some InvalidContentType) ∧
  (key ≠ "" → RawData value ≠ nil_slice → ContentType value ≠ "" →
   MatchString pattern (ContentType value) = true →
   (Write ns key value).2 = None).
Proof.
  unfold Write. repeat split.
  - intros ->. done.
  - intros Hk Hd. rewrite bool_decide_eq_false_2 by done. by rewrite Hd.
  - intros Hk Hd Hc. rewrite bool_decide_eq_false_2 by done.
    destruct (RawData value); [done|]. simpl.
    by rewrite bool_decide_eq_true_2.
  - intros Hk Hd Hc Hm. rewrite bool_decide_eq_false_2 by done.
    destruct (RawData value); [done|]. simpl.
    rewrite bool_decide_eq_false_2 by done. by rewrite Hm.
  - intros Hk Hd Hc Hm. rewrite bool_decide_eq_false_2 by done.
    destruct (RawData value); [done|]. simpl.
    rewrite bool_decide_eq_false_2 by done. by rewrite Hm.
Qed.

Lemma Write_validation_order_witness :
  (Write db_A "" record_v1).2 = Some EmptyKey ∧
  (Write db_A "K" {| RawData := nil_slice; ContentType := "text/plain" |}).2
    = Some NilPayload ∧
  (Write db_A "K" {| RawData := mkSlice 0 0 2; ContentType := "" |}).2
    = Some EmptyContentType ∧
  (Write db_A "K" {| RawData := mkSlice 0 0 2; ContentType := "not-a-type" |}).2
    = Some InvalidContentType ∧
  (Write db_A "K" record_v1).2 = None.
Proof.
  split; [|split; [|split; [|split]]].
  - apply (Write_validation_order db_A "" record_v1). reflexivity.
  - apply (Write_validation_order db_A "K"
             {| RawData := nil_slice; ContentType := "text/plain" |});
      [discriminate|reflexivity].
  - apply (Write_validation_order db_A "K"
             {| RawData := mkSlice 0 0 2; ContentType := "" |});
      [discriminate|discriminate|reflexivity].
  - apply (Write_validation_order db_A "K"
             {| RawData := mkSlice 0 0 2; ContentType := "not-a-type" |});
      [discriminate|discriminate|discriminate|reflexivity].
  - apply (Write_validation_order db_A "K" record_v1);
      [discriminate|discriminate|discriminate|reflexivity].
Defined.

(** C5. A [Write] whose key and record break a Validator rule returns
    the failure of the first rule that is broken (the empty key, then
    the nil payload, then the empty media type, then the media type
    that does not match) and leaves the store as it was: [Exists] and
    [Read] answer for every key as before the call. *)
Theorem Write_invalid_no_mutation ns key value :
  ¬ valid key value →
  ∃ e, Write ns key value = (ns, Some e) ∧
       e ∈ [EmptyKey; NilPayload; EmptyContentType; InvalidContentType] ∧
       (key = "" → e = EmptyKey) ∧
       (key ≠ "" → RawData value = nil_slice → e = NilPayload) ∧
       (key ≠ "" → RawData value ≠ nil_slice → ContentType value = "" →
        e = EmptyContentType) ∧
       (key ≠ "" → RawData value ≠ nil_slice → ContentType value ≠ "" →
        e = InvalidContentType) ∧
       (Write ns key value).1 = ns ∧
       ∀ k, Exists (Write ns key value).1 k = Exists ns k ∧
            Read (Write ns key value).1 k = Read ns k.
Proof.
  intros Hv. unfold Write, valid in *.
  case_bool_decide as Hk.
  { exists EmptyKey. repeat split; try done; set_solver. }
  destruct (RawData value) as [|a off len] eqn:Hd; simpl.
  { exists NilPayload. repeat split; try done; set_solver. }
  case_bool_decide as Hc.
  { exists EmptyContentType. repeat split; try done; set_solver. }
  destruct (MatchString pattern (ContentType value)) eqn:Hm; simpl.
  { exfalso. apply Hv. done. }
  exists InvalidContentType. repeat split; try done; set_solver.
Qed.

Lemma Write_invalid_no_mutation_witness :
  ∃ e, Write db_A "A" {| RawData := mkSlice 0 0 2; ContentType := "not-a-type" |}
         = (db_A, Some e) ∧
       e ∈ [EmptyKey; NilPayload; EmptyContentType; InvalidContentType] ∧
       ("A" = "" → e = EmptyKey) ∧
       ("A" ≠ "" → mkSlice 0 0 2 = nil_slice → e = NilPayload) ∧
       ("A" ≠ "" → mkSlice 0 0 2 ≠ nil_slice → "not-a-type" = "" →
        e = EmptyContentType) ∧
       ("A" ≠ "" → mkSlice 0 0 2 ≠ nil_slice → "not-a-type" ≠ "" →
        e = InvalidContentType) ∧
       (Write db_A "A" {| RawData := mkSlice 0 0 2; ContentType := "not-a-type" |}).1
         = db_A ∧
       ∀ k, Exists (Write db_A "A"
                      {| RawData := mkSlice 0 0 2; ContentType := "not-a-type" |}).1 k
              = Exists db_A k ∧
            Read (Write db_A "A"
                    {| RawData := mkSlice 0 0 2; ContentType := "not-a-type" |}).1 k
              = Read db_A k.
Proof.
  apply (Write_invalid_no_mutation db_A "A"
           {| RawData := mkSlice 0 0 2; ContentType := "not-a-type" |}).
  intros (_ & _ & _ & Hm). discriminate Hm.
Defined.

(** C7. After a [Write] of a valid record under a non-empty key, which
    succeeds, [Exists] is true and [Read] returns the record written;
    a second [Write] to the key replaces the record whole. *)
Theorem Write_then_Read ns key R1 R2 :
  valid key R1 → valid key R2 →
  (Write ns key R1).2 = None ∧
  Exists (Write ns key R1).1 key = true ∧
  Read (Write ns key R1).1 key = (R1, None) ∧
  (Write (Write ns key R1).1 key R2).2 = None ∧
  Read (Write (Write ns key R1).1 key R2).1 key = (R2, None).
Proof.
  intros H1 H2. rewrite (Write_valid ns key R1 H1). simpl.
  rewrite (Write_valid _ key R2 H2). simpl.
  unfold Exists, Read. simpl. rewrite !lookup_insert_eq. done.
Qed.

Lemma Write_then_Read_witness :
  (Write (empty_db "nabia.db") "A" record_v1).2 = None ∧
  Exists (Write (empty_db "nabia.db") "A" record_v1).1 "A" = true ∧
  Read (Write (empty_db "nabia.db") "A" record_v1).1 "A" = (record_v1, None) ∧
  (Write (Write (empty_db "nabia.db") "A" record_v1).1 "A" record_v2).2 = None ∧
  Read (Write (Write (empty_db "nabia.db") "A" record_v1).1 "A" record_v2).1 "A"
    = (record_v2, None).
Proof.
  apply (Write_then_Read (empty_db "nabia.db") "A" record_v1 record_v2).
  - repeat split; try discriminate.
  - repeat split; try discriminate.
Defined.

(** C10. [Read] of a key that is not in the store returns an error and
    the zero record, whose payload is nil and whose media type is
    empty; no [Write] accepts that record. *)
Theorem Read_missing ns key :
  Exists ns key = false →
  Read ns key = (zero_record, Some (NotFound key)) ∧
  RawData (Read ns key).1 = nil_slice ∧
  ContentType (Read ns key).1 = "" ∧
  (∀ k, ¬ valid k (Read ns key).1) ∧
  (∀ ns' k, ∃ e, Write ns' k (Read ns key).1 = (ns', Some e)).
Proof.
  unfold Exists, Read. destruct (Records ns !! key); [done|]. intros _. simpl.
  repeat split.
  - intros k (_ & Hd & _). done.
  - intros ns' k. unfold Write. case_bool_decide; eauto.
Qed.

Lemma Read_missing_witness :
  Read db_A "B" = (zero_record, Some (NotFound "B")) ∧
  RawData (Read db_A "B").1 = nil_slice ∧
  ContentType (Read db_A "B").1 = "" ∧
  (∀ k, ¬ valid k (Read db_A "B").1) ∧
  (∀ ns' k, ∃ e, Write ns' k (Read db_A "B").1 = (ns', Some e)).
Proof. apply (Read_missing db_A "B"). reflexivity. Defined.

(** ** Read and the caller's copy *)




(** The store with pointers does what the store by value does. *)
Lemma Ref_lookup ns structs key p :
  Ref.wf ns structs → Ref.Records ns !! key = Some p →
  ∃ r, structs !! p = Some r ∧ Records (deref ns structs) !! key = Some r.
Proof.
  intros Hwf Hp. destruct (lookup_lt_is_Some_2 structs p) as [r Hr]; [by eapply Hwf|].
  exists r. split; [done|]. unfold deref. simpl.
  by rewrite lookup_omap, Hp.
Qed.

Lemma Ref_Read_deref ns structs key :
  Ref.wf ns structs →
  Ref.Read ns structs key = Read (deref ns structs) key ∧
  Ref.Exists ns key = Exists (deref ns structs) key.
Proof.
  intros Hwf. unfold Ref.Read, Ref.Exists, Read, Exists.
  destruct (Ref.Records ns !! key) as [p|] eqn:Hp.
  - destruct (Ref_lookup ns structs key p Hwf Hp) as (r & Hr & ->). by rewrite Hr.
  - unfold deref. simpl. by rewrite lookup_omap, Hp.
Qed.

Lemma Ref_Write_deref ns structs key value :
  Ref.wf ns structs →
  Ref.wf (Ref.Write ns structs key value).1.1 (Ref.Write ns structs key value).1.2 ∧
  deref (Ref.Write ns structs key value).1.1 (Ref.Write ns structs key value).1.2
    = (Write (deref ns structs) key value).1 ∧
  (Ref.Write ns structs key value).2 = (Write (deref ns structs) key value).2.
Proof.
  intros Hwf. unfold Ref.Write, Write.
  repeat (case_match; simpl; try done).
  split; [|split; [|done]].
  - intros k p. simpl. destruct (decide (key = k)) as [->|Hne].
    + rewrite lookup_insert_eq. intros [= <-]. rewrite length_app. simpl. lia.
    + rewrite lookup_insert_ne by done. intros Hp. apply Hwf in Hp.
      rewrite length_app. lia.
  - unfold deref, with_Records. simpl. f_equal. apply map_eq. intros k.
    rewrite lookup_omap. destruct (decide (key = k)) as [->|Hne].
    + rewrite !lookup_insert_eq. simpl.
      rewrite lookup_app_r by lia. by rewrite Nat.sub_diag.
    + rewrite !lookup_insert_ne by done. rewrite lookup_omap.
      destruct (Ref.Records ns !! k) as [p|] eqn:Hp; [|done]. simpl.
      apply Hwf in Hp. by rewrite lookup_app_l.
Qed.

Lemma Ref_Destroy_deref ns structs key :
  Ref.wf ns structs →
  Ref.wf (Ref.Destroy ns key) structs ∧
  deref (Ref.Destroy ns key) structs = Destroy (deref ns structs) key.
Proof.
  intros Hwf. split.
  - intros k p. simpl. destruct (decide (key = k)) as [->|Hne].
    + by rewrite lookup_delete_eq.
    + rewrite lookup_delete_ne by done. apply Hwf.
  - unfold deref, Destroy, with_Records. simpl. f_equal.
    apply map_eq. intros k. rewrite lookup_omap.
    destruct (decide (key = k)) as [->|Hne].
    + by rewrite !lookup_delete_eq.
    + rewrite !lookup_delete_ne by done. by rewrite lookup_omap.
Qed.


(** A caller that held the pointer of the store, and not a copy of
    the struct, would change the record of the store. *)
Lemma mutate_through_pointer ns structs key p r ct w :
  Ref.Records ns !! key = Some p → structs !! p = Some r →
  ∃ structs',
    Ref.mutate_var p (SetContentType ct) structs w = Done structs' w ∧
    Ref.Read ns structs' key = ({| RawData := RawData r; ContentType := ct |}, None).
Proof.
  intros Hp Hr. eexists. unfold Ref.mutate_var, Ref.Read. rewrite Hr, Hp.
  split; [reflexivity|].
  rewrite list_lookup_insert_eq by (by eapply lookup_lt_Some). done.
Qed.



(** ** Running the engine when the operating system refuses nothing *)

Lemma set_files_id w : set_files (files w) w = w.
Proof. by destruct w. Qed.

Lemma set_files_twice f g w : set_files f (set_files g w) = set_files f w.
Proof. done. Qed.

Lemma next_fault_none w : faults w = [] → next_fault w = Done None w.
Proof. unfold next_fault. by intros ->. Qed.

Lemma os_Create_ok name w :
  faults w = [] →
  os_Create name w = Done (inr name) (set_files (<[name := []]> (files w)) w).
Proof. intros Hf. unfold os_Create. io_unfold. by rewrite next_fault_none. Qed.

Lemma os_Stat_ok name w :
  faults w = [] →
  os_Stat name w =
    Done (match files w !! name with
          | Some _ => None
          | None => Some (PathError "stat" name ENOENT)
          end) w.
Proof.
  intros Hf. unfold os_Stat. io_unfold. rewrite next_fault_none by done.
  by destruct (files w !! name).
Qed.

Lemma os_Open_ok name w :
  faults w = [] →
  os_Open name w =
    Done (match files w !! name with
          | Some _ => inr name
          | None => inl (PathError "open" name ENOENT)
          end) w.
Proof.
  intros Hf. unfold os_Open. io_unfold. rewrite next_fault_none by done.
  by destruct (files w !! name).
Qed.

Lemma File_Write_ok file p c w :
  faults w = [] → files w !! file = Some c →
  File_Write file p w = Done None (set_files (<[file := c ++ p]> (files w)) w).
Proof.
  intros Hf Hc. unfold File_Write. io_unfold.
  rewrite next_fault_none by done. by rewrite Hc.
Qed.

Lemma File_ReadAll_ok file c w :
  faults w = [] → files w !! file = Some c →
  File_ReadAll file w = Done (inr c) w.
Proof.
  intros Hf Hc. unfold File_ReadAll. io_unfold.
  rewrite next_fault_none by done. by rewrite Hc.
Qed.

Lemma bufio_Flush_ok b c w :
  faults w = [] → files w !! wr b = Some c → werr b = None →
  bufio_Flush b w =
    Done ({| wr := wr b; buf := []; werr := None |}, None)
         (set_files (<[wr b := c ++ buf b]> (files w)) w).
Proof.
  intros Hf Hc He. unfold bufio_Flush, Buffered. rewrite He.
  destruct (buf b) as [|x l] eqn:Hb; simpl.
  - io_unfold. rewrite app_nil_r, insert_id, set_files_id by done.
    destruct b; simpl in *; by subst.
  - io_unfold. erewrite File_Write_ok by done. done.
Qed.

(** The bytes that went to the file and the bytes still buffered or
    still to write are, together, what they were before. *)
Lemma bufio_Write_loop_ok fuel : ∀ b p c w,
  faults w = [] → files w !! wr b = Some c → werr b = None →
  ∃ b' p' c',
    bufio_Write_loop fuel b p w
      = Done (b', p') (set_files (<[wr b := c']> (files w)) w) ∧
    wr b' = wr b ∧ werr b' = None ∧
    c' ++ buf b' ++ p' = c ++ buf b ++ p.
Proof.
  induction fuel as [|fuel IH]; intros b p c w Hf Hc He; simpl.
  - exists b, p, c. io_unfold. by rewrite insert_id, set_files_id.
  - rewrite He, bool_decide_eq_true_2, andb_true_r by done.
    destruct (Available b <? length p) eqn:Hav; simpl;
      [|exists b, p, c; io_unfold; by rewrite insert_id, set_files_id].
    destruct (Buffered b =? 0) eqn:Hbuf.
    + io_unfold. erewrite File_Write_ok by done.
      set (w1 := set_files _ w).
      destruct (IH b [] (c ++ p) w1) as (b' & p' & c' & Hrun & Hwr & Herr & Heq);
        [done|by apply lookup_insert_eq|done|].
      exists b', p', c'. rewrite Hrun. subst w1. simpl.
      rewrite insert_insert_eq. repeat split; [done..|].
      rewrite Heq. apply Nat.eqb_eq in Hbuf. unfold Buffered in Hbuf.
      apply nil_length_inv in Hbuf. rewrite Hbuf. simpl.
      by rewrite app_nil_r.
    + io_unfold.
      set (b1 := {| wr := wr b; buf := buf b ++ take (Available b) p; werr := None |}).
      rewrite (bufio_Flush_ok b1 c w) by done. simpl.
      set (w1 := set_files _ w).
      set (b2 := {| wr := wr b; buf := []; werr := None |}).
      destruct (IH b2 (drop (Available b) p) (c ++ buf b ++ take (Available b) p) w1)
        as (b' & p' & c' & Hrun & Hwr & Herr & Heq);
        [done|by apply lookup_insert_eq|done|].
      exists b', p', c'. rewrite Hrun. subst w1. simpl.
      rewrite insert_insert_eq. repeat split; [done..|].
      rewrite Heq. simpl. rewrite <- !app_assoc. by rewrite take_drop.
Qed.

Lemma bufio_Write_ok b p c w :
  faults w = [] → files w !! wr b = Some c → werr b = None →
  ∃ b' c',
    bufio_Write b p w = Done (b', None) (set_files (<[wr b := c']> (files w)) w) ∧
    wr b' = wr b ∧ werr b' = None ∧
    c' ++ buf b' = c ++ buf b ++ p.
Proof.
  intros Hf Hc He. unfold bufio_Write. io_unfold.
  destruct (bufio_Write_loop_ok (S (S (length p))) b p c w Hf Hc He)
    as (b' & p' & c' & Hrun & Hwr & Herr & Heq).
  rewrite Hrun, Herr.
  exists {| wr := wr b'; buf := buf b' ++ p'; werr := None |}, c'.
  repeat split; done.
Qed.

Lemma map_fold_insert_union {A} (data m : gmap string A) :
  map_fold (λ key value d, <[key := value]> d) m data = data ∪ m.
Proof.
  apply (map_fold_weak_ind (λ r d, r = d ∪ m)).
  - by rewrite (left_id_L ∅ (∪)).
  - intros i x d r _ ->. by rewrite insert_union_l.
Qed.

Lemma map_fold_insert_empty {A} (data : gmap string A) :
  map_fold (λ key value d, <[key := value]> d) ∅ data = data.
Proof. by rewrite map_fold_insert_union, (right_id_L ∅ (∪)). Qed.

Lemma slice_bytes_value h s : default [] (slice_value h s) = slice_bytes h s.
Proof. by destruct s. Qed.

Lemma wire_record_value h r :
  wire (record_value h r) = (slice_bytes h (RawData r), ContentType r).
Proof. unfold wire, record_value. simpl. by rewrite slice_bytes_value. Qed.

Lemma alloc_slice_ok v w :
  ∃ s extra,
    alloc_slice v w = Done s (set_heap (heap w ++ extra) w) ∧
    ∀ more, slice_value (heap w ++ extra ++ more) s = v.
Proof.
  destruct v as [bs|]; simpl.
  - exists (mkSlice (length (heap w)) 0 (length bs)), [bs]. split; [done|].
    intros more. simpl.
    rewrite lookup_app_r by lia. rewrite Nat.sub_diag. simpl.
    by rewrite firstn_all.
  - exists nil_slice, []. io_unfold. split; [|done].
    rewrite app_nil_r. by destruct w.
Qed.

Lemma alloc_records_ok l : ∀ w,
  ∃ l' extra,
    alloc_records l w = Done l' (set_heap (heap w ++ extra) w) ∧
    ∀ more,
      prod_map id (record_value (heap w ++ extra ++ more)) <$> l' = l.
Proof.
  induction l as [|[k [v ct]] l IH]; intros w; simpl.
  - exists [], []. io_unfold. split; [|done]. rewrite app_nil_r. by destruct w.
  - io_unfold.
    destruct (alloc_slice_ok v w) as (s & e1 & Hs & Hv). rewrite Hs.
    destruct (IH (set_heap (heap w ++ e1) w)) as (l' & e2 & Hl & Hl'). rewrite Hl.
    exists ((k, {| RawData := s; ContentType := ct |}) :: l'), (e1 ++ e2).
    simpl. split; [by rewrite app_assoc|].
    intros more. f_equal.
    + unfold record_value. simpl.
      by rewrite <- app_assoc, Hv.
    + specialize (Hl' more). simpl in Hl'.
      etrans; [|exact Hl']. by rewrite <- !app_assoc.
Qed.

Section FaultFree.
Context `{Gob}.

Lemma Encoder_write_ok msgs : ∀ b c w,
  faults w = [] → files w !! wr b = Some c → werr b = None →
  ∃ b' c',
    Encoder_write b msgs w
      = Done (b', None) (set_files (<[wr b := c']> (files w)) w) ∧
    wr b' = wr b ∧ werr b' = None ∧
    c' ++ buf b' = c ++ buf b ++ concat msgs.
Proof.
  induction msgs as [|m msgs IH]; intros b c w Hf Hc He; simpl.
  - exists b, c. io_unfold. rewrite insert_id, set_files_id by done.
    by rewrite app_nil_r.
  - io_unfold.
    destruct (bufio_Write_ok b m c w Hf Hc He) as (b1 & c1 & Hrun & Hwr & Herr & Heq).
    rewrite Hrun.
    set (w1 := set_files _ w).
    destruct (IH b1 c1 w1) as (b' & c' & Hrun' & Hwr' & Herr' & Heq');
      [done|rewrite Hwr; by apply lookup_insert_eq|done|].
    exists b', c'. rewrite Hrun'. subst w1. simpl.
    rewrite Hwr, insert_insert_eq. repeat split; [congruence|done|].
    rewrite Heq'. rewrite app_assoc, Heq. by rewrite <- !app_assoc.
Qed.

(** [saveToFile], when no system call fails, leaves in the file the
    messages of the encoder for the records of the store, and nothing
    else changes. *)
Lemma saveToFile_ok ns filename w :
  faults w = [] →
  saveToFile ns filename w =
    Done None
      (set_files
         (<[filename := concat (gob_Encode (record_value (heap w) <$> Records ns))]>
            (files w)) w).
Proof.
  intros Hf. unfold saveToFile, Encoder_Encode. io_unfold.
  rewrite os_Create_ok by done. rewrite map_fold_insert_empty. simpl.
  set (w1 := set_files _ w).
  destruct (Encoder_write_ok
              (gob_Encode (record_value (heap w) <$> Records ns))
              (bufio_NewWriter filename) [] w1)
    as (b' & c' & Hrun & Hwr & Herr & Heq);
    [done|by apply lookup_insert_eq|done|].
  rewrite Hrun. simpl in *.
  rewrite (bufio_Flush_ok b' c') by (rewrite ?Hwr; try done; by apply lookup_insert_eq).
  subst w1. simpl. rewrite Hwr, Heq, !insert_insert_eq. done.
Qed.

Lemma Decoder_Decode_ok file c values w :
  faults w = [] → files w !! file = Some c → gob_Decode c = inr values →
  ∃ m extra,
    Decoder_Decode file w = Done (inr m) (set_heap (heap w ++ extra) w) ∧
    record_value (heap w ++ extra) <$> m = values.
Proof.
  intros Hf Hc Hd. unfold Decoder_Decode. io_unfold.
  rewrite (File_ReadAll_ok file c) by done. rewrite Hd.
  destruct (alloc_records_ok (map_to_list values) w) as (l' & extra & Hl & Hl').
  rewrite Hl. exists (list_to_map l'), extra. split; [done|].
  specialize (Hl' []). rewrite app_nil_r in Hl'.
  rewrite <- list_to_map_fmap, Hl'. apply list_to_map_to_list.
Qed.

(** [loadFromFile], when no system call fails and the file decodes to
    [values], puts a record for each of them into the store. *)
Lemma loadFromFile_ok ns filename c values w :
  faults w = [] → files w !! filename = Some c → gob_Decode c = inr values →
  ∃ m extra,
    loadFromFile ns filename w
      = Done (with_Records ns (m ∪ Records ns), None)
             (set_heap (heap w ++ extra) w) ∧
    record_value (heap w ++ extra) <$> m = values.
Proof.
  intros Hf Hc Hd. unfold loadFromFile. io_unfold.
  rewrite os_Open_ok, Hc by done.
  destruct (Decoder_Decode_ok filename c values w Hf Hc Hd) as (m & extra & Hrun & Hm).
  rewrite Hrun. exists m, extra. by rewrite map_fold_insert_union.
Qed.

(** [loadFromFile] on a file the decoder rejects returns the decoder's
    error and leaves the store and the world as they were. *)
Lemma loadFromFile_corrupt ns filename c err w :
  faults w = [] → files w !! filename = Some c → gob_Decode c = inl err →
  loadFromFile ns filename w = Done (ns, Some err) w.
Proof.
  intros Hf Hc Hd. unfold loadFromFile, Decoder_Decode. io_unfold.
  rewrite os_Open_ok, Hc by done.
  rewrite (File_ReadAll_ok filename c) by done. by rewrite Hd.
Qed.

Lemma checkOrCreateFile_exists location c w :
  faults w = [] → files w !! location = Some c →
  checkOrCreateFile location w = Done (true, None) w.
Proof.
  intros Hf Hc. unfold checkOrCreateFile. io_unfold.
  by rewrite os_Stat_ok, Hc.
Qed.

Lemma checkOrCreateFile_absent location w :
  faults w = [] → files w !! location = None →
  checkOrCreateFile location w
    = Done (false, None) (set_files (<[location := []]> (files w)) w).
Proof.
  intros Hf Hc. unfold checkOrCreateFile. io_unfold.
  rewrite os_Stat_ok, Hc by done. simpl. by rewrite os_Create_ok.
Qed.

End FaultFree.

(** ** Whatever the operating system answers *)

Lemma calm_ret {A} (a : A) : calm (mret a).
Proof. intros w. by exists a, w. Qed.

Lemma calm_bind {A B} (m : IO A) (f : A → IO B) :
  calm m → (∀ a, calm (f a)) → calm (m ≫= f).
Proof.
  intros Hm Hf w. destruct (Hm w) as (a & w1 & Hrun & Hlog & Hdom).
  destruct (Hf a w1) as (b & w2 & Hrun' & Hlog' & Hdom').
  exists b, w2. io_unfold. rewrite Hrun. split; [done|].
  split; [congruence|set_solver].
Qed.

Lemma calm_get_world : calm get_world.
Proof. intros w. by exists w, w. Qed.

Lemma calm_next_fault : calm next_fault.
Proof.
  intros w. unfold next_fault. destruct (faults w) as [|f fs]; by eexists _, _.
Qed.

Lemma calm_set_files {A} (a : A) (g : World → gmap string (list byte)) :
  (∀ w, dom (files w) ⊆ dom (g w)) →
  calm (λ w, Done a (set_files (g w) w)).
Proof. intros Hg w. eexists _, _. split; [done|]. split; [done|]. apply Hg. Qed.

Lemma calm_os_Stat name : calm (os_Stat name).
Proof.
  apply calm_bind; [apply calm_next_fault|]. intros [e|]; [apply calm_ret|].
  apply calm_bind; [apply calm_get_world|]. intros w.
  destruct (files w !! name); apply calm_ret.
Qed.

Lemma calm_os_Create name : calm (os_Create name).
Proof.
  apply calm_bind; [apply calm_next_fault|]. intros [e|]; [apply calm_ret|].
  apply (calm_set_files _ (λ w, <[name := []]> (files w))).
  intros w. rewrite dom_insert. set_solver.
Qed.

Lemma calm_os_Open name : calm (os_Open name).
Proof.
  apply calm_bind; [apply calm_next_fault|]. intros [e|]; [apply calm_ret|].
  apply calm_bind; [apply calm_get_world|]. intros w.
  destruct (files w !! name); apply calm_ret.
Qed.

Lemma calm_File_Write file p : calm (File_Write file p).
Proof.
  apply calm_bind; [apply calm_next_fault|]. intros [e|]; [apply calm_ret|].
  apply (calm_set_files _ (λ w, <[file := default [] (files w !! file) ++ p]> (files w))).
  intros w. rewrite dom_insert. set_solver.
Qed.

Lemma calm_File_ReadAll file : calm (File_ReadAll file).
Proof.
  apply calm_bind; [apply calm_next_fault|]. intros [e|]; [apply calm_ret|].
  apply calm_bind; [apply calm_get_world|]. intros w. apply calm_ret.
Qed.

Lemma calm_bufio_Flush b : calm (bufio_Flush b).
Proof.
  unfold bufio_Flush. destruct (werr b); [apply calm_ret|].
  destruct (Buffered b =? 0); [apply calm_ret|].
  apply calm_bind; [apply calm_File_Write|]. intros [e|]; apply calm_ret.
Qed.

Lemma calm_bufio_Write_loop fuel : ∀ b p, calm (bufio_Write_loop fuel b p).
Proof.
  induction fuel as [|fuel IH]; intros b p; simpl; [apply calm_ret|].
  destruct (_ && _); [|apply calm_ret].
  destruct (Buffered b =? 0).
  - apply calm_bind; [apply calm_File_Write|]. intros [e|]; apply IH.
  - apply calm_bind; [apply calm_bufio_Flush|]. intros [b' e]. apply IH.
Qed.

Lemma calm_bufio_Write b p : calm (bufio_Write b p).
Proof.
  apply calm_bind; [apply calm_bufio_Write_loop|]. intros [b' p'].
  destruct (werr b'); apply calm_ret.
Qed.

Lemma calm_alloc_bytes bs : calm (alloc_bytes bs).
Proof. intros w. by eexists _, _. Qed.

Lemma calm_alloc_records l : calm (alloc_records l).
Proof.
  induction l as [|[k [v ct]] l IH]; simpl; [apply calm_ret|].
  apply calm_bind; [destruct v; [apply calm_alloc_bytes|apply calm_ret]|].
  intros s. apply calm_bind; [apply IH|]. intros rest. apply calm_ret.
Qed.

Section AnyAnswer.
Context `{Gob}.

Lemma calm_Encoder_write msgs : ∀ b, calm (Encoder_write b msgs).
Proof.
  induction msgs as [|m msgs IH]; intros b; simpl; [apply calm_ret|].
  apply calm_bind; [apply calm_bufio_Write|]. intros [b' [e|]]; [apply calm_ret|apply IH].
Qed.

Lemma calm_Encoder_Encode b data : calm (Encoder_Encode b data).
Proof.
  apply calm_bind; [apply calm_get_world|]. intros w. apply calm_Encoder_write.
Qed.

Lemma calm_Decoder_Decode file : calm (Decoder_Decode file).
Proof.
  apply calm_bind; [apply calm_File_ReadAll|]. intros [e|bytes]; [apply calm_ret|].
  destruct (gob_Decode bytes); [apply calm_ret|].
  apply calm_bind; [apply calm_alloc_records|]. intros l. apply calm_ret.
Qed.

Lemma calm_saveToFile ns filename : calm (saveToFile ns filename).
Proof.
  apply calm_bind; [apply calm_os_Create|]. intros [e|file]; [apply calm_ret|].
  apply calm_bind; [apply calm_Encoder_Encode|]. intros [b e].
  apply calm_bind; [apply calm_bufio_Flush|]. intros _. apply calm_ret.
Qed.

Lemma calm_loadFromFile ns filename : calm (loadFromFile ns filename).
Proof.
  apply calm_bind; [apply calm_os_Open|]. intros [e|file]; [apply calm_ret|].
  apply calm_bind; [apply calm_Decoder_Decode|]. intros [e|data]; apply calm_ret.
Qed.

Lemma calm_checkOrCreateFile location : calm (checkOrCreateFile location).
Proof.
  apply calm_bind; [apply calm_os_Stat|]. intros [e|]; [|apply calm_ret].
  destruct (os_IsNotExist e); [|apply calm_ret].
  apply calm_bind; [apply calm_os_Create|]. intros [e'|file]; apply calm_ret.
Qed.

(** When [checkOrCreateFile] returns no error, the file is there. *)
Lemma checkOrCreateFile_there location w b w1 :
  checkOrCreateFile location w = Done (b, None) w1 →
  is_Some (files w1 !! location).
Proof.
  destruct w as [hp fl fs lg].
  unfold checkOrCreateFile, os_Stat, os_Create, next_fault. io_unfold.
  destruct fs as [|[e|] fs]; simpl.
  - destruct (fl !! location) eqn:Hl; simpl.
    + intros [= <- <-]. done.
    + intros [= <- <-]. simpl. rewrite lookup_insert_eq. by eexists.
  - destruct e; simpl; try (intros [=]; fail).
    destruct fs as [|[e'|] fs']; simpl; intros [= <- <-]; simpl;
      rewrite lookup_insert_eq; by eexists.
  - destruct (fl !! location) eqn:Hl; simpl.
    + intros [= <- <-]. done.
    + destruct fs as [|[e'|] fs']; simpl; intros [= <- <-]; simpl;
        rewrite lookup_insert_eq; by eexists.
Qed.

End AnyAnswer.

(** ** The invariant of the store *)

Lemma store_valid_empty location : store_valid (empty_db location).
Proof. intros k r. unfold empty_db. simpl. by rewrite lookup_empty. Qed.

(** [loadFromFile] puts into the store whatever the snapshot decodes
    to, and runs none of the checks of [Write]. From a snapshot that
    holds a record with the empty key, no payload and no media type, an
    empty store comes out holding that record. *)
Lemma load_breaks_invariant_counterexample :
  store_valid (empty_db "nabia.db") ∧
  ∃ ns' w',
    run_op (H := SimpleGob.codec) (OpLoad "nabia.db") (empty_db "nabia.db")
      world_invalid_snapshot = Done ns' w' ∧
    Records ns' !! "" = Some zero_record ∧
    ¬ store_valid ns'.
Proof.
  split; [apply store_valid_empty|].
  eexists _, _. split; [vm_compute; reflexivity|].
  split; [reflexivity|].
  intros Hv. destruct (Hv "" zero_record) as [Hk _]; [reflexivity|]. by apply Hk.
Qed.

Section Invariant.
Context `{Gob}.

(** The empty store satisfies the invariant, and [Write], [Read],
    [Exists], [Destroy] and [saveToFile] preserve it: after any of them
    every record in the store still satisfies the Validator rules. *)
Theorem invariant_preserved location o ns w ns' w' :
  store_valid (empty_db location) ∧
  (match o with OpLoad _ => False | _ => True end →
   store_valid ns →
   run_op o ns w = Done ns' w' →
   store_valid ns').
Proof.
  split; [apply store_valid_empty|].
  intros Ho Hv Hrun. destruct o as [key value|key|key|key|filename|filename];
    simpl in Hrun; io_unfold.
  - inversion Hrun; subst; clear Hrun.
    destruct (Write_cases ns key value) as [[Hval ->]|[_ (e & -> & _)]]; [|done].
    intros k r. simpl. destruct (decide (key = k)) as [->|Hne].
    + rewrite lookup_insert_eq. by intros [= <-].
    + rewrite lookup_insert_ne by done. apply Hv.
  - by inversion Hrun; subst.
  - by inversion Hrun; subst.
  - inversion Hrun; subst; clear Hrun.
    intros k r. simpl. destruct (decide (key = k)) as [->|Hne].
    + by rewrite lookup_delete_eq.
    + rewrite lookup_delete_ne by done. apply Hv.
  - destruct (saveToFile ns filename w); by inversion Hrun; subst.
  - done.
Qed.

End Invariant.

Lemma invariant_preserved_witness :
  store_valid (empty_db "nabia.db") ∧
  store_valid (Write db_A "B" record_v2).1.
Proof.
  assert (Hdb : store_valid db_A).
  { intros k r. unfold db_A. simpl.
    destruct (decide (k = "A")) as [->|Hne].
    - rewrite lookup_singleton_eq. intros [= <-]. repeat split; discriminate.
    - by rewrite lookup_singleton_ne. }
  split.
  - apply (invariant_preserved (H := SimpleGob.codec) "nabia.db"
             (OpRead "A") db_A world_v1 db_A world_v1).
  - apply (invariant_preserved (H := SimpleGob.codec) "nabia.db"
             (OpWrite "B" record_v2) db_A world_v1 (Write db_A "B" record_v2).1 world_v1
          ); [exact I|exact Hdb|reflexivity].
Defined.

Section Unvalidated.
Context `{Gob}.

(** C2. What the engine does with a target that holds a record no
    [Write] would take (an empty key, no payload, an empty media type
    or one that does not match): [loadFromFile], and [NewNabiaDB]
    through it, puts the record into the store without any of the
    checks of [Write], so the store then holds a record that breaks the
    Validator rules, and that the engine's own [Write] refuses under a
    non-empty key. *)
Theorem load_stores_unvalidated location c values key v w :
  faults w = [] → files w !! location = Some c → gob_Decode c = inr values →
  values !! key = Some v →
  key = "" ∨ v.1 = None ∨ v.2 = "" ∨ MatchString pattern v.2 = false →
  ∃ ndb w' r,
    loadFromFile (empty_db location) location w = Done (ndb, None) w' ∧
    NewNabiaDB location w = Done (Some ndb, None) w' ∧
    Records ndb !! key = Some r ∧
    record_value (heap w') r = v ∧
    ¬ valid key r ∧
    ¬ store_valid ndb ∧
    (key ≠ "" → ∃ e, Write ndb key r = (ndb, Some e)).
Proof.
  intros Hf Hc Hd Hv Hbad.
  destruct (loadFromFile_ok (empty_db location) location c values w Hf Hc Hd)
    as (m & extra & Hload & Hm).
  apply (f_equal (λ x, x !! key)) in Hm. rewrite lookup_fmap, Hv in Hm.
  destruct (m !! key) as [r|] eqn:Hr; [|done]. simpl in Hm.
  injection Hm as Hm.
  assert (Hnv : ¬ valid key r).
  { intros (Hk & Hp & Hct & Hmatch). rewrite <- Hm in Hbad. simpl in Hbad.
    destruct Hbad as [?|[Hnil|[?|?]]]; try done; [|congruence].
    by destruct (RawData r). }
  eexists _, _, r. split; [exact Hload|]. split.
  { unfold NewNabiaDB. io_unfold.
    rewrite (checkOrCreateFile_exists location c) by done.
    fold (empty_db location). by rewrite Hload. }
  assert (Hl : Records (with_Records (empty_db location) (m ∪ Records (empty_db location)))
                 !! key = Some r).
  { simpl. by rewrite (lookup_union_Some_l _ _ _ _ Hr). }
  split; [done|]. split; [done|]. split; [done|]. split.
  - intros Hsv. apply Hnv. by eapply Hsv.
  - intros _. destruct (Write_cases
        (with_Records (empty_db location) (m ∪ Records (empty_db location))) key r)
      as [[? _]|[_ (e & -> & _)]]; [done|by exists e].
Qed.

End Unvalidated.

Lemma load_stores_unvalidated_witness :
  (∃ ndb w' r,
     loadFromFile (H := SimpleGob.codec) (empty_db "nabia.db") "nabia.db"
       world_invalid_snapshot = Done (ndb, None) w' ∧
     NewNabiaDB (H := SimpleGob.codec) "nabia.db" world_invalid_snapshot
       = Done (Some ndb, None) w' ∧
     Records ndb !! "" = Some r ∧
     record_value (heap w') r = (None, "") ∧
     ¬ valid "" r ∧
     ¬ store_valid ndb ∧
     ("" ≠ "" → ∃ e, Write ndb "" r = (ndb, Some e))) ∧
  (∃ ndb w' r,
     loadFromFile (H := SimpleGob.codec) (empty_db "nabia.db") "nabia.db"
       world_three_saved = Done (ndb, None) w' ∧
     NewNabiaDB (H := SimpleGob.codec) "nabia.db" world_three_saved
       = Done (Some ndb, None) w' ∧
     Records ndb !! "E" = Some r ∧
     record_value (heap w') r = (None, "text/plain") ∧
     ¬ valid "E" r ∧
     ¬ store_valid ndb ∧
     ("E" ≠ "" → ∃ e, Write ndb "E" r = (ndb, Some e))).
Proof.
  split.
  - apply (load_stores_unvalidated (H := SimpleGob.codec) "nabia.db"
             (concat (SimpleGob.Encode {[ "" := (None, "") ]}))
             {[ "" := (None, "") ]} "" (None, "") world_invalid_snapshot).
    + reflexivity.
    + reflexivity.
    + vm_compute. reflexivity.
    + reflexivity.
    + left. reflexivity.
  - apply (load_stores_unvalidated (H := SimpleGob.codec) "nabia.db"
             (concat (SimpleGob.Encode
                        (record_value (heap world_three) <$> Records db_three)))
             {[ "A" := (Some (list_byte_of_string "v1"), "text/plain");
                "E" := (None, "text/plain");
                "J" := (Some (list_byte_of_string "v2"), "application/json") ]}
             "E" (None, "text/plain") world_three_saved).
    + reflexivity.
    + reflexivity.
    + vm_compute. reflexivity.
    + vm_compute. reflexivity.
    + right. left. reflexivity.
Defined.

(** ** Construction and snapshots *)

Section Snapshots.
Context `{Gob}.

(** C1. What the engine does on a target that cannot be decoded:
    [loadFromFile] returns the error of the decoder, and [NewNabiaDB],
    which drops what [loadFromFile] returns, hands back an empty store
    and no error. *)
Theorem NewNabiaDB_corrupt_snapshot location c err w :
  faults w = [] → files w !! location = Some c → gob_Decode c = inl err →
  loadFromFile (empty_db location) location w
    = Done (empty_db location, Some err) w ∧
  NewNabiaDB location w = Done (Some (empty_db location), None) w.
Proof.
  intros Hf Hc Hd.
  pose proof (loadFromFile_corrupt (empty_db location) location c err w Hf Hc Hd) as Hload.
  split; [done|]. unfold NewNabiaDB. io_unfold.
  rewrite (checkOrCreateFile_exists location c) by done.
  fold (empty_db location). by rewrite Hload.
Qed.

(** Save and load again, in terms of bytes: when no system call fails
    and the codec reads back the bytes it wrote for the records of the
    store, [saveToFile] succeeds, and a store built on the same target
    by [loadFromFile], or by [NewNabiaDB], holds the same keys, each
    with the payload bytes and the media type it had. Whether a payload
    that shows no bytes comes back nil or empty is not said. *)
Theorem save_load_round_trip ns target w :
  faults w = [] →
  gob_round_trips (record_value (heap w) <$> Records ns) →
  ∃ w1 ns2 w2,
    saveToFile ns target w = Done None w1 ∧
    loadFromFile (empty_db target) target w1 = Done (ns2, None) w2 ∧
    NewNabiaDB target w1 = Done (Some ns2, None) w2 ∧
    dom (Records ns2) = dom (Records ns) ∧
    ∀ key r, Records ns !! key = Some r →
      ∃ r2, Records ns2 !! key = Some r2 ∧
            slice_bytes (heap w2) (RawData r2) = slice_bytes (heap w) (RawData r) ∧
            ContentType r2 = ContentType r.
Proof.
  intros Hf (values & Hdec & Hwire).
  set (c := concat (gob_Encode (record_value (heap w) <$> Records ns))) in *.
  set (w1 := set_files (<[target := c]> (files w)) w).
  assert (Hc : files w1 !! target = Some c) by apply lookup_insert_eq.
  destruct (loadFromFile_ok (empty_db target) target c values w1)
    as (m & extra & Hload & Hm); [done..|].
  exists w1, (with_Records (empty_db target) (m ∪ ∅)), (set_heap (heap w1 ++ extra) w1).
  split; [by apply saveToFile_ok|]. split; [done|]. split.
  { unfold NewNabiaDB. io_unfold.
    rewrite (checkOrCreateFile_exists target c) by done.
    fold (empty_db target). by rewrite Hload. }
  simpl. rewrite (right_id_L ∅ (∪)).
  change (heap w1) with (heap w) in Hm.
  assert (Heq : wire <$> (record_value (heap w ++ extra) <$> m)
                = wire <$> (record_value (heap w) <$> Records ns))
    by (by rewrite Hm).
  split.
  - apply (f_equal dom) in Heq. by rewrite !dom_fmap_L in Heq.
  - intros key r Hr.
    apply (f_equal (λ x, x !! key)) in Heq.
    rewrite !lookup_fmap, Hr in Heq. simpl in Heq.
    destruct (m !! key) as [r2|]; [|done]. simpl in Heq.
    exists r2. split; [done|].
    rewrite !wire_record_value in Heq. by inversion Heq.
Qed.

(** C9. Construction on a target. When the target exists, [NewNabiaDB]
    runs [loadFromFile] on an empty store and returns the store it
    leaves, whose records are, read through the heap, what the target
    decodes to. When the target does not exist, it is created and the
    snapshot of the empty store is written to it. In both cases no
    system call is taken to fail. Whatever the system calls answer,
    when [NewNabiaDB] returns a store and no error the target exists. *)
Theorem NewNabiaDB_policy location w :
  (∀ c, faults w = [] → files w !! location = Some c →
     ∃ ndb e w',
       loadFromFile (empty_db location) location w = Done (ndb, e) w' ∧
       NewNabiaDB location w = Done (Some ndb, None) w' ∧
       files w' = files w ∧
       ∀ values, gob_Decode c = inr values →
         e = None ∧ record_value (heap w') <$> Records ndb = values) ∧
  (faults w = [] → files w !! location = None →
     NewNabiaDB location w =
       Done (Some (empty_db location), None)
            (set_files (<[location := concat (gob_Encode ∅)]> (files w)) w)) ∧
  (∀ ndb w', NewNabiaDB location w = Done (Some ndb, None) w' →
     is_Some (files w' !! location)).
Proof.
  split; [|split].
  - intros c Hf Hc.
    assert (Hnew : ∀ ndb e w',
      loadFromFile (empty_db location) location w = Done (ndb, e) w' →
      NewNabiaDB location w = Done (Some ndb, None) w').
    { intros ndb e w' Hload. unfold NewNabiaDB. io_unfold.
      rewrite (checkOrCreateFile_exists location c) by done.
      fold (empty_db location). by rewrite Hload. }
    destruct (gob_Decode c) as [err|values] eqn:Hd.
    + pose proof (loadFromFile_corrupt (empty_db location) location c err w Hf Hc Hd)
        as Hload.
      exists (empty_db location), (Some err), w.
      split; [done|]. split; [by eapply Hnew|]. split; [done|]. by intros ? [=].
    + destruct (loadFromFile_ok (empty_db location) location c values w Hf Hc Hd)
        as (m & extra & Hload & Hm).
      eexists _, _, _. split; [exact Hload|]. split; [by eapply Hnew|].
      split; [done|]. intros ? [= <-]. split; [done|]. simpl.
      by rewrite (right_id_L ∅ (∪)).
  - intros Hf Hc. unfold NewNabiaDB. io_unfold.
    rewrite checkOrCreateFile_absent by done.
    fold (empty_db location). rewrite saveToFile_ok by done. simpl.
    by rewrite fmap_empty, insert_insert_eq.
  - intros ndb w' Hrun. unfold NewNabiaDB in Hrun. io_unfold.
    destruct (calm_checkOrCreateFile location w) as ([b e] & w1 & Hck & _ & _).
    rewrite Hck in Hrun. destruct e as [e|]; [done|].
    pose proof (checkOrCreateFile_there location w b w1 Hck) as Hin.
    apply elem_of_dom in Hin. apply elem_of_dom. destruct b.
    + destruct (calm_loadFromFile {| Records := ∅; location := location |} location w1)
        as ([ndb' e'] & w2 & Hload & _ & Hdom).
      rewrite Hload in Hrun. inversion Hrun; subst. set_solver.
    + destruct (calm_saveToFile {| Records := ∅; location := location |} location w1)
        as (e' & w2 & Hsave & _ & Hdom).
      rewrite Hsave in Hrun. destruct e'; [done|]. inversion Hrun; subst. set_solver.
Qed.

End Snapshots.

Lemma NewNabiaDB_corrupt_snapshot_witness :
  loadFromFile (H := SimpleGob.codec) (empty_db "nabia.db") "nabia.db" world_corrupt
    = Done (empty_db "nabia.db", Some (GobError "EOF")) world_corrupt ∧
  NewNabiaDB (H := SimpleGob.codec) "nabia.db" world_corrupt
    = Done (Some (empty_db "nabia.db"), None) world_corrupt.
Proof.
  apply (NewNabiaDB_corrupt_snapshot (H := SimpleGob.codec)
           "nabia.db" [] (GobError "EOF") world_corrupt); reflexivity.
Defined.

Lemma save_load_round_trip_witness :
  ∃ w1 ns2 w2,
    saveToFile (H := SimpleGob.codec) db_three "nabia.db" world_three = Done None w1 ∧
    loadFromFile (H := SimpleGob.codec) (empty_db "nabia.db") "nabia.db" w1
      = Done (ns2, None) w2 ∧
    NewNabiaDB (H := SimpleGob.codec) "nabia.db" w1 = Done (Some ns2, None) w2 ∧
    dom (Records ns2) = dom (Records db_three) ∧
    ∀ key r, Records db_three !! key = Some r →
      ∃ r2, Records ns2 !! key = Some r2 ∧
            slice_bytes (heap w2) (RawData r2)
              = slice_bytes (heap world_three) (RawData r) ∧
            ContentType r2 = ContentType r.
Proof.
  apply (save_load_round_trip (H := SimpleGob.codec) db_three "nabia.db" world_three).
  - reflexivity.
  - eexists. split; vm_compute; reflexivity.
Defined.

Lemma NewNabiaDB_policy_witness :
  (∃ ndb e w',
     loadFromFile (H := SimpleGob.codec) (empty_db "nabia.db") "nabia.db" world_saved
       = Done (ndb, e) w' ∧
     NewNabiaDB (H := SimpleGob.codec) "nabia.db" world_saved
       = Done (Some ndb, None) w' ∧
     files w' = files world_saved ∧
     ∀ values,
       SimpleGob.Decode
         (concat (SimpleGob.Encode
                    {[ "A" := (Some (list_byte_of_string "v1"), "text/plain") ]}))
         = inr values →
       e = None ∧ record_value (heap w') <$> Records ndb = values) ∧
  NewNabiaDB (H := SimpleGob.codec) "nabia.db" empty_world =
    Done (Some (empty_db "nabia.db"), None)
         (set_files (<["nabia.db" := concat (SimpleGob.Encode ∅)]> (files empty_world))
                    empty_world) ∧
  is_Some (files world_corrupt !! "nabia.db").
Proof.
  split; [|split].
  - apply (NewNabiaDB_policy (H := SimpleGob.codec) "nabia.db" world_saved); reflexivity.
  - apply (NewNabiaDB_policy (H := SimpleGob.codec) "nabia.db" empty_world); reflexivity.
  - apply (proj2 (proj2 (NewNabiaDB_policy (H := SimpleGob.codec)
                            "nabia.db" world_corrupt)) (empty_db "nabia.db")).
    reflexivity.
Defined.

(** ** Where errors go *)

(** C8, as stated, fails: on a target that did not exist, when the
    first snapshot cannot be written, [NewNabiaDB] does not return the
    error: it logs it and ends the process. *)
Lemma NewNabiaDB_fatal_counterexample :
  NewNabiaDB (H := SimpleGob.codec) "nabia.db" world_second_create_fails =
    Exit 1 {| heap := []; files := {[ "nabia.db" := [] ]}; faults := [];
              log := ["Failed to save to file: open nabia.db: permission denied"] |}.
Proof. reflexivity. Qed.

Section Errors.
Context `{Gob}.

(** C8, amended. [Write] returns its validation failure and [Read] its
    miss; [saveToFile], [loadFromFile] and [checkOrCreateFile] always
    return to their caller and log nothing, [saveToFile] returns the
    error of [os.Create] and the error of the encoder, [loadFromFile]
    the error of [os.Open] and the error of the decoder,
    [checkOrCreateFile] the error of [os.Stat] (other than not-exist)
    and of [os.Create], and [NewNabiaDB] returns the error of
    [checkOrCreateFile]. When the target did not exist and the first
    [saveToFile] fails, [NewNabiaDB] logs the error and ends the
    process with status 1. *)
Theorem errors_reach_caller :
  (∀ ns key value, ¬ valid key value → ∃ e, Write ns key value = (ns, Some e)) ∧
  (∀ ns key, Exists ns key = false →
     Read ns key = (zero_record, Some (NotFound key))) ∧
  (∀ ns filename, calm (saveToFile ns filename)) ∧
  (∀ ns filename w e w1,
     os_Create filename w = Done (inl e) w1 →
     saveToFile ns filename w = Done (Some e) w1) ∧
  (∀ ns filename w file w1 b e w2,
     os_Create filename w = Done (inr file) w1 →
     Encoder_Encode (bufio_NewWriter file) (Records ns) w1 = Done (b, Some e) w2 →
     ∃ w3, saveToFile ns filename w = Done (Some e) w3) ∧
  (∀ ns filename, calm (loadFromFile ns filename)) ∧
  (∀ ns filename w e w1,
     os_Open filename w = Done (inl e) w1 →
     loadFromFile ns filename w = Done (ns, Some e) w1) ∧
  (∀ ns filename w file w1 e w2,
     os_Open filename w = Done (inr file) w1 →
     Decoder_Decode file w1 = Done (inl e) w2 →
     loadFromFile ns filename w = Done (ns, Some e) w2) ∧
  (∀ location, calm (checkOrCreateFile location)) ∧
  (∀ location w e w1,
     os_Stat location w = Done (Some e) w1 → os_IsNotExist e = false →
     checkOrCreateFile location w = Done (false, Some e) w1) ∧
  (∀ location w e w1 e' w2,
     os_Stat location w = Done (Some e) w1 → os_IsNotExist e = true →
     os_Create location w1 = Done (inl e') w2 →
     checkOrCreateFile location w = Done (false, Some e') w2) ∧
  (∀ location w b e w1,
     checkOrCreateFile location w = Done (b, Some e) w1 →
     NewNabiaDB location w = Done (None, Some e) w1) ∧
  (∀ location w w1 e w2,
     checkOrCreateFile location w = Done (false, None) w1 →
     saveToFile (empty_db location) location w1 = Done (Some e) w2 →
     NewNabiaDB location w =
       Exit 1 (set_log (log w2 ++ ["Failed to save to file: " +:+ Error e]) w2)).
Proof.
  repeat apply conj.
  - intros ns key value Hv.
    destruct (Write_cases ns key value) as [[? _]|[_ (e & -> & _)]]; [done|by exists e].
  - intros ns key. unfold Exists, Read. by destruct (Records ns !! key).
  - apply calm_saveToFile.
  - intros ns filename w e w1 Hc. unfold saveToFile. io_unfold. by rewrite Hc.
  - intros ns filename w file w1 b e w2 Hc He. unfold saveToFile. io_unfold.
    rewrite Hc, map_fold_insert_empty, He.
    destruct (calm_bufio_Flush b w2) as (r & w3 & -> & _). by exists w3.
  - apply calm_loadFromFile.
  - intros ns filename w e w1 Ho. unfold loadFromFile. io_unfold. by rewrite Ho.
  - intros ns filename w file w1 e w2 Ho Hd. unfold loadFromFile. io_unfold.
    by rewrite Ho, Hd.
  - apply calm_checkOrCreateFile.
  - intros location w e w1 Hs Hne. unfold checkOrCreateFile. io_unfold.
    by rewrite Hs, Hne.
  - intros location w e w1 e' w2 Hs Hne Hc. unfold checkOrCreateFile. io_unfold.
    by rewrite Hs, Hne, Hc.
  - intros location w b e w1 Hck. unfold NewNabiaDB. io_unfold. by rewrite Hck.
  - intros location w w1 e w2 Hck Hs. unfold NewNabiaDB. io_unfold.
    rewrite Hck. fold (empty_db location). by rewrite Hs.
Qed.

End Errors.

Lemma errors_reach_caller_witness :
  (∃ e, Write db_A "" record_v1 = (db_A, Some e)) ∧
  Read db_A "B" = (zero_record, Some (NotFound "B")) ∧
  saveToFile (H := SimpleGob.codec) db_A "nabia.db" world_stat_refused
    = Done (Some (PathError "open" "nabia.db" EACCES)) empty_world ∧
  (∃ w3, saveToFile (H := SimpleGob.codec) db_big "nabia.db" world_disk_full
         = Done (Some (PathError "write" "nabia.db" ENOSPC)) w3) ∧
  loadFromFile (H := SimpleGob.codec) db_A "nabia.db" world_open_refused
    = Done (db_A, Some (PathError "open" "nabia.db" EACCES)) world_corrupt ∧
  loadFromFile (H := SimpleGob.codec) db_A "nabia.db" world_corrupt
    = Done (db_A, Some (GobError "EOF")) world_corrupt ∧
  checkOrCreateFile "nabia.db" world_stat_refused
    = Done (false, Some (PathError "stat" "nabia.db" EACCES)) empty_world ∧
  checkOrCreateFile "nabia.db" world_create_refused
    = Done (false, Some (PathError "open" "nabia.db" EACCES)) empty_world ∧
  NewNabiaDB (H := SimpleGob.codec) "nabia.db" world_stat_refused
    = Done (None, Some (PathError "stat" "nabia.db" EACCES)) empty_world ∧
  NewNabiaDB (H := SimpleGob.codec) "nabia.db" world_second_create_fails
    = Exit 1 (set_log ["Failed to save to file: open nabia.db: permission denied"]
                      world_corrupt).
Proof.
  destruct (errors_reach_caller (H := SimpleGob.codec))
    as (HW & HR & _ & HS1 & HS2 & _ & HL1 & HL2 & _ & HC1 & HC2 & HN1 & HN2).
  repeat apply conj.
  - apply (HW db_A "" record_v1). intros [Hk _]. by apply Hk.
  - apply (HR db_A "B"). reflexivity.
  - apply (HS1 db_A "nabia.db" world_stat_refused). reflexivity.
  - eapply (HS2 db_big "nabia.db" world_disk_full); [reflexivity|].
    vm_compute. reflexivity.
  - apply (HL1 db_A "nabia.db" world_open_refused). reflexivity.
  - eapply (HL2 db_A "nabia.db" world_corrupt); reflexivity.
  - apply (HC1 "nabia.db" world_stat_refused); reflexivity.
  - eapply (HC2 "nabia.db" world_create_refused); reflexivity.
  - eapply (HN1 "nabia.db" world_stat_refused). reflexivity.
  - apply (HN2 "nabia.db" world_second_create_fails
             (set_faults [Some EACCES] world_corrupt)
             (PathError "open" "nabia.db" EACCES) world_corrupt); reflexivity.
Defined.

Lemma store_valid_db_three : store_valid db_three.
Proof.
  intros k r. unfold db_three. simpl. intros Hl.
  apply lookup_insert_Some in Hl as [[<- <-]|[_ Hl]];
    [repeat split; discriminate|].
  apply lookup_insert_Some in Hl as [[<- <-]|[_ Hl]];
    [repeat split; discriminate|].
  apply lookup_singleton_Some in Hl as [<- <-]. repeat split; discriminate.
Qed.

(** C3. What the engine does with a record whose payload is empty and
    not nil, on a codec that, like gob, sends no zero-valued field: the
    store holds valid records only, and [Write] takes the record of
    [E] again; after [saveToFile] and a new [NewNabiaDB] on the target
    the record of [E] has a nil payload, so the mapping is not the one
    that was saved, the new store breaks the Validator rules, and
    [Write] refuses the record it holds. *)
Theorem save_load_loses_empty_payload :
  ∃ w1 ns2 w2,
    store_valid db_three ∧
    saveToFile (H := SimpleGob.codec) db_three "nabia.db" world_three = Done None w1 ∧
    NewNabiaDB (H := SimpleGob.codec) "nabia.db" w1 = Done (Some ns2, None) w2 ∧
    record_value (heap world_three) (Read db_three "E").1 = (Some [], "text/plain") ∧
    record_value (heap w2) (Read ns2 "E").1 = (None, "text/plain") ∧
    record_value (heap w2) <$> Records ns2
      ≠ record_value (heap world_three) <$> Records db_three ∧
    Write db_three "E" (Read db_three "E").1 = (db_three, None) ∧
    Write ns2 "E" (Read ns2 "E").1 = (ns2, Some NilPayload) ∧
    ¬ store_valid ns2.
Proof.
  eexists _, _, _. split; [apply store_valid_db_three|].
  split; [vm_compute; reflexivity|]. split; [vm_compute; reflexivity|].
  split; [reflexivity|]. split; [reflexivity|]. split.
  { intros Heq. apply (f_equal (λ m, m !! "E")) in Heq. vm_compute in Heq.
    discriminate Heq. }
  split; [vm_compute; reflexivity|]. split; [vm_compute; reflexivity|].
  intros Hv.
  destruct (Hv "E" {| RawData := nil_slice; ContentType := "text/plain" |})
    as (_ & Hd & _); [vm_compute; reflexivity|]. by apply Hd.
Qed.

(** * More properties of the engine *)

(** ** The primitives of the store *)

Lemma NabiaDB_eq ns ns' :
  Records ns = Records ns' → location ns = location ns' → ns = ns'.
Proof. destruct ns, ns'. simpl. by intros -> ->. Qed.

Lemma Write_Records ns key value :
  Records (Write ns key value).1 =
    if decide (valid key value) then <[key := value]> (Records ns) else Records ns.
Proof.
  destruct (Write_cases ns key value) as [[Hv ->]|[Hv (e & -> & _)]];
    by rewrite ?decide_True, ?decide_False by done.
Qed.

Lemma Write_location ns key value : location (Write ns key value).1 = location ns.
Proof.
  by destruct (Write_cases ns key value) as [[Hv ->]|[Hv (e & -> & _)]].
Qed.

(** X1. [Destroy] removes the key and nothing else: after it the key
    does not exist and [Read] of it fails, every other key reads as
    before, a second [Destroy] changes nothing, and on a key that was
    not there the store is left as it was. *)
Theorem Destroy_removes ns key :
  Exists (Destroy ns key) key = false ∧
  Read (Destroy ns key) key = (zero_record, Some (NotFound key)) ∧
  (∀ k, k ≠ key →
     Exists (Destroy ns key) k = Exists ns k ∧
     Read (Destroy ns key) k = Read ns k) ∧
  Destroy (Destroy ns key) key = Destroy ns key ∧
  (Exists ns key = false → Destroy ns key = ns).
Proof.
  unfold Exists, Read, Destroy. simpl. rewrite lookup_delete_eq.
  repeat split.
  - by rewrite lookup_delete_ne.
  - by rewrite lookup_delete_ne.
  - apply NabiaDB_eq; [|done]. simpl. by rewrite delete_delete_eq.
  - intros Hex. apply NabiaDB_eq; [|done]. simpl.
    apply delete_id. by destruct (Records ns !! key).
Qed.

Lemma Destroy_removes_witness :
  Exists (Destroy db_A "A") "B" = Exists db_A "B" ∧
  Read (Destroy db_A "A") "B" = Read db_A "B" ∧
  Destroy db_A "B" = db_A.
Proof.
  split; [|split].
  - apply (Destroy_removes db_A "A"). discriminate.
  - apply (Destroy_removes db_A "A"). discriminate.
  - apply (Destroy_removes db_A "B"). reflexivity.
Defined.

(** X2. [Write] to one key, accepted or not, leaves every other key as
    it was, and the location of the store too. *)
Theorem Write_other_keys ns key value k :
  k ≠ key →
  Exists (Write ns key value).1 k = Exists ns k ∧
  Read (Write ns key value).1 k = Read ns k ∧
  location (Write ns key value).1 = location ns.
Proof.
  intros Hne. unfold Exists, Read. rewrite Write_Records, Write_location.
  destruct (decide (valid key value)); [|done].
  by rewrite lookup_insert_ne.
Qed.

Lemma Write_other_keys_witness :
  Exists (Write db_A "B" record_v2).1 "A" = Exists db_A "A" ∧
  Read (Write db_A "B" record_v2).1 "A" = Read db_A "A" ∧
  location (Write db_A "B" record_v2).1 = location db_A.
Proof. apply (Write_other_keys db_A "B" record_v2 "A"). discriminate. Defined.

(** X3. [Exists] and [Read] agree: a key exists exactly when [Read] of
    it returns no error, and then [Read] returns a record that [Write]
    would store under a key again if the store holds valid records
    only. *)
Theorem Exists_iff_Read ns key :
  (Exists ns key = true ↔ (Read ns key).2 = None) ∧
  (Exists ns key = false ↔ (Read ns key).2 = Some (NotFound key)) ∧
  (store_valid ns → Exists ns key = true →
   Write ns key (Read ns key).1 = (ns, None)).
Proof.
  unfold Exists, Read. destruct (Records ns !! key) as [r|] eqn:Hr; simpl.
  - repeat split; try done. intros Hv _.
    rewrite (Write_valid ns key r) by (by apply Hv).
    f_equal. apply NabiaDB_eq; [|done]. simpl. by apply insert_id.
  - repeat split; done.
Qed.

Lemma Exists_iff_Read_witness :
  Write db_A "A" (Read db_A "A").1 = (db_A, None).
Proof.
  apply (Exists_iff_Read db_A "A"); [|reflexivity].
  intros k r. unfold db_A. simpl.
  destruct (decide (k = "A")) as [->|Hne].
  - rewrite lookup_singleton_eq. intros [= <-]. repeat split; discriminate.
  - by rewrite lookup_singleton_ne.
Defined.

(** X4. [Destroy] undoes [Write]: destroying a key just written,
    accepted or not, gives what destroying it before the write gives,
    which is the store itself when the key was not there. *)
Theorem Destroy_after_Write ns key value :
  Destroy (Write ns key value).1 key = Destroy ns key ∧
  (Exists ns key = false → Destroy (Write ns key value).1 key = ns).
Proof.
  assert (Heq : Destroy (Write ns key value).1 key = Destroy ns key).
  { apply NabiaDB_eq; simpl; [|apply Write_location].
    rewrite Write_Records. destruct (decide (valid key value)); [|done].
    by rewrite delete_insert_eq. }
  split; [done|]. intros Hex. rewrite Heq.
  apply NabiaDB_eq; [|done]. simpl. apply delete_id.
  unfold Exists in Hex. by destruct (Records ns !! key).
Qed.

Lemma Destroy_after_Write_witness :
  Destroy (Write db_A "B" record_v2).1 "B" = db_A.
Proof. apply (Destroy_after_Write db_A "B" record_v2). reflexivity. Defined.

(** X5. Writes to two different keys can be made in either order: the
    store is the same, whether each write is accepted or not. *)
Theorem Write_commutes ns key1 value1 key2 value2 :
  key1 ≠ key2 →
  (Write (Write ns key1 value1).1 key2 value2).1
    = (Write (Write ns key2 value2).1 key1 value1).1.
Proof.
  intros Hne. apply NabiaDB_eq; [|by rewrite !Write_location].
  rewrite !Write_Records.
  destruct (decide (valid key1 value1)), (decide (valid key2 value2)); try done.
  by apply insert_insert_ne.
Qed.

Lemma Write_commutes_witness :
  (Write (Write db_A "B" record_v2).1 "C" record_v1).1
    = (Write (Write db_A "C" record_v1).1 "B" record_v2).1.
Proof. apply (Write_commutes db_A "B" record_v2 "C" record_v1). discriminate. Defined.

(** X6. What [Write] takes: a record built by [NewNabiaRecord] is
    stored exactly when the key is non-empty, the data is not nil and
    the content type starts with one or more letters or digits, a
    slash, and one or more letters or digits; what follows is not
    looked at. *)
Theorem Write_accepts ns key data ct :
  (Write ns key (NewNabiaRecord data ct)).2 = None ↔
  key ≠ "" ∧ data ≠ nil_slice ∧
  ∃ a b rest, ct = a +:+ "/" +:+ b +:+ rest ∧
              a ≠ "" ∧ all_in alnum a = true ∧
              b ≠ "" ∧ all_in alnum b = true.
Proof.
  rewrite <- MatchString_pattern. split.
  - intros Hw.
    destruct (Write_cases ns key (NewNabiaRecord data ct))
      as [[(Hk & Hd & _ & Hm) _]|[_ (e & He & _)]]; [done|].
    by rewrite He in Hw.
  - intros (Hk & Hd & Hm). rewrite Write_valid; [done|].
    repeat split; try done. simpl. intros ->. done.
Qed.

(** ** The earlier engine and this one *)

(** X7. The earlier [Write] stores whatever it is given, under any
    key: the empty key and the zero record too. [Exists] and [Read]
    then see what was written. *)
Theorem Draft_Write_stores_anything ns key value :
  Draft.Exists (Draft.Write ns key value) key = true ∧
  Draft.Read (Draft.Write ns key value) key = (value, None) ∧
  (∀ k, k ≠ key →
     Draft.Read (Draft.Write ns key value) k = Draft.Read ns k).
Proof.
  unfold Draft.Exists, Draft.Read, Draft.Write. simpl.
  rewrite !lookup_insert_eq. repeat split.
  intros k Hk. by rewrite lookup_insert_ne.
Qed.

Lemma Draft_Write_stores_anything_witness :
  Draft.Read (Draft.Write Draft.NewNabiaDB "" zero_record) "A"
    = Draft.Read Draft.NewNabiaDB "A".
Proof.
  apply (Draft_Write_stores_anything Draft.NewNabiaDB "" zero_record). discriminate.
Defined.

(** X8. The engine with validation does what the earlier engine does,
    on the same records: [Exists], [Read] and [Destroy] always agree,
    [Write] agrees when the key and the record are valid, and otherwise
    leaves the store where the earlier [Write] changes it. *)
Theorem engine_refines_draft ns key value :
  Draft.Exists (as_draft ns) key = Exists ns key ∧
  Draft.Read (as_draft ns) key = Read ns key ∧
  Draft.Destroy (as_draft ns) key = as_draft (Destroy ns key) ∧
  (valid key value →
   Draft.Write (as_draft ns) key value = as_draft (Write ns key value).1) ∧
  (¬ valid key value →
   as_draft (Write ns key value).1 = as_draft ns ∧
   Draft.Read (Draft.Write (as_draft ns) key value) key = (value, None)).
Proof.
  repeat split.
  - intros Hv. unfold Draft.Write, as_draft. simpl.
    by rewrite Write_Records, decide_True.
  - unfold as_draft. by rewrite Write_Records, decide_False.
  - unfold Draft.Read, Draft.Write. simpl. by rewrite lookup_insert_eq.
Qed.

Lemma engine_refines_draft_witness :
  Draft.Write (as_draft db_A) "B" record_v2 = as_draft (Write db_A "B" record_v2).1 ∧
  as_draft (Write db_A "" zero_record).1 = as_draft db_A ∧
  Draft.Read (Draft.Write (as_draft db_A) "" zero_record) "" = (zero_record, None).
Proof.
  split.
  - apply (engine_refines_draft db_A "B" record_v2). repeat split; discriminate.
  - apply (engine_refines_draft db_A "" zero_record). intros [Hk _]. by apply Hk.
Defined.

(** ** Records and their payloads *)

Lemma slice_bytes_grow h extra s :
  in_heap h s → slice_bytes (h ++ extra) s = slice_bytes h s.
Proof.
  destruct s as [|a off len]; [done|]. intros (arr & Ha & _). simpl.
  by rewrite (lookup_app_l_Some _ _ _ _ Ha), Ha.
Qed.

(** X9. [NewNabiaString] makes a record of type
    [text/plain; charset=UTF-8] whose payload is a new array with the
    bytes of the string: [Write] takes the record under every non-empty
    key, also when the string is empty; the slices that were there show
    the bytes they showed, and no file and no log line is touched. *)
Theorem NewNabiaString_record s w :
  ∃ r w',
    NewNabiaString s w = Done r w' ∧
    ContentType r = "text/plain; charset=UTF-8" ∧
    slice_bytes (heap w') (RawData r) = list_byte_of_string s ∧
    (∀ ns key, key ≠ "" →
       Write ns key r = (with_Records ns (<[key := r]> (Records ns)), None)) ∧
    (∀ sl, in_heap (heap w) sl →
       slice_bytes (heap w') sl = slice_bytes (heap w) sl) ∧
    files w' = files w ∧ log w' = log w ∧ faults w' = faults w.
Proof.
  eexists _, _. split; [reflexivity|]. simpl. repeat split.
  - rewrite lookup_app_r by lia. rewrite Nat.sub_diag. simpl.
    by rewrite firstn_all.
  - intros ns key Hk. apply Write_valid. repeat split; done.
  - intros sl Hsl. by apply slice_bytes_grow.
Qed.

Lemma NewNabiaString_record_witness :
  ∃ r w',
    NewNabiaString "" world_v1 = Done r w' ∧
    Write db_A "empty" r = (with_Records db_A (<["empty" := r]> (Records db_A)), None) ∧
    slice_bytes (heap w') (RawData record_v1) = slice_bytes (heap world_v1) (RawData record_v1).
Proof.
  destruct (NewNabiaString_record "" world_v1)
    as (r & w' & Hrun & _ & _ & Hw & Hold & _).
  exists r, w'. split; [exact Hrun|]. split.
  - apply Hw. discriminate.
  - apply Hold. exists (list_byte_of_string "v1"). split; [reflexivity|]. simpl. lia.
Defined.

(** X10. [Write] keeps the payload slice it is given and copies no
    byte: when the caller afterwards writes a byte through the slice it
    passed, [Read] shows the payload with that byte changed. *)
Theorem Write_shares_payload ns key value a off len arr i b w :
  valid key value →
  RawData value = mkSlice a off len →
  heap w !! a = Some arr → off + len ≤ length arr → i < len →
  ∃ w',
    slice_set (RawData value) i b w = Done () w' ∧
    Read (Write ns key value).1 key = (value, None) ∧
    slice_bytes (heap w') (RawData (Read (Write ns key value).1 key).1)
      = <[i := b]> (slice_bytes (heap w) (RawData value)).
Proof.
  intros Hv Hd Ha Hlen Hi. rewrite (Write_valid ns key value Hv), Hd.
  unfold Read. simpl. rewrite lookup_insert_eq. simpl. rewrite ?Hd.
  assert ((i <? len) = true) as -> by (by apply Nat.ltb_lt).
  eexists. split; [reflexivity|]. split; [done|]. simpl.
  rewrite Ha. simpl.
  rewrite list_lookup_insert_eq by (by eapply lookup_lt_Some). simpl.
  rewrite drop_insert_ge by lia. rewrite take_insert_lt by lia.
  f_equal. lia.
Qed.

Lemma Write_shares_payload_witness :
  ∃ w',
    slice_set (RawData record_v1) 0 "X"%byte world_v1 = Done () w' ∧
    Read (Write (empty_db "nabia.db") "A" record_v1).1 "A" = (record_v1, None) ∧
    slice_bytes (heap w')
      (RawData (Read (Write (empty_db "nabia.db") "A" record_v1).1 "A").1)
      = <[0 := "X"%byte]> (slice_bytes (heap world_v1) (RawData record_v1)).
Proof.
  apply (Write_shares_payload (empty_db "nabia.db") "A" record_v1 0 0 2
           (list_byte_of_string "v1") 0 "X"%byte world_v1).
  - repeat split; discriminate.
  - reflexivity.
  - reflexivity.
  - simpl. lia.
  - lia.
Defined.

(** ** Loading *)

Section Loading.
Context `{Gob}.

(** [loadFromFile] keeps the location of the store. *)
Lemma loadFromFile_location ns filename w ns' e w' :
  loadFromFile ns filename w = Done (ns', e) w' → location ns' = location ns.
Proof.
  unfold loadFromFile. io_unfold.
  destruct (os_Open filename w) as [[err|file] w1|]; [by intros [= <- _ _]| |done].
  destruct (Decoder_Decode file w1) as [[err|data] w2|]; [| |done];
    by intros [= <- _ _].
Qed.

(** X11. [loadFromFile] is all or nothing and reads only: whatever the
    system calls answer, it changes no file and logs nothing; when it
    returns an error the store and the heap are as they were; and the
    slices that were there show the bytes they showed. *)
Theorem loadFromFile_all_or_nothing ns filename w ns' e w' :
  loadFromFile ns filename w = Done (ns', e) w' →
  files w' = files w ∧ log w' = log w ∧ location ns' = location ns ∧
  (e ≠ None → ns' = ns ∧ heap w' = heap w) ∧
  (∀ sl, in_heap (heap w) sl → slice_bytes (heap w') sl = slice_bytes (heap w) sl).
Proof.
  destruct w as [hp fl fs lg].
  unfold loadFromFile, os_Open, Decoder_Decode, File_ReadAll, next_fault.
  io_unfold. simpl.
  assert (Hdecode : ∀ c fs',
    match
      match gob_Decode c with
      | inl err => λ w0, Done (inl err) w0
      | inr values => λ w0,
          match alloc_records (map_to_list values) w0 with
          | Done a w'0 => Done (inr (list_to_map a)) w'0
          | Exit code w'0 => Exit code w'0
          end
      end {| heap := hp; files := fl; faults := fs'; log := lg |}
    with
    | Done a w'0 =>
        match a with
        | inl err => λ w0, Done (ns, Some err) w0
        | inr data => λ w0,
            Done (with_Records ns
                    (map_fold (λ key value m, <[key:=value]> m) (Records ns) data),
                  None) w0
        end w'0
    | Exit code w'0 => Exit code w'0
    end = Done (ns', e) w' →
    files w' = fl ∧ log w' = lg ∧ location ns' = location ns ∧
    (e ≠ None → ns' = ns ∧ heap w' = hp) ∧
    (∀ sl, in_heap hp sl → slice_bytes (heap w') sl = slice_bytes hp sl)).
  { intros c fs'. destruct (gob_Decode c) as [err|values].
    - intros [= <- <- <-]. done.
    - destruct (alloc_records_ok (map_to_list values)
                  {| heap := hp; files := fl; faults := fs'; log := lg |})
        as (l' & extra & -> & _).
      intros [= <- <- <-]. simpl.
      split; [done|]. split; [done|]. split; [done|]. split; [done|].
      intros sl Hsl. by apply slice_bytes_grow. }
  destruct fs as [|[errno|] fs]; simpl.
  - destruct (fl !! filename) eqn:Hf; simpl.
    + apply Hdecode.
    + intros [= <- <- <-]. done.
  - intros [= <- <- <-]. done.
  - destruct (fl !! filename) eqn:Hf; simpl.
    + destruct fs as [|[errno|] fs]; simpl.
      * apply Hdecode.
      * intros [= <- <- <-]. done.
      * apply Hdecode.
    + intros [= <- <- <-]. done.
Qed.

(** X12. [loadFromFile] adds to the store and does not clear it: when
    no system call fails and the file decodes, every key of the
    snapshot gets the record of the snapshot, in place of the one the
    store had, and every key that is not in the snapshot keeps its
    record. *)
Theorem loadFromFile_merges ns filename c values w :
  faults w = [] → files w !! filename = Some c → gob_Decode c = inr values →
  ∃ ns' w',
    loadFromFile ns filename w = Done (ns', None) w' ∧
    (∀ k, values !! k = None → Records ns' !! k = Records ns !! k) ∧
    (∀ k v, values !! k = Some v →
       ∃ r, Records ns' !! k = Some r ∧ record_value (heap w') r = v).
Proof.
  intros Hf Hc Hd.
  destruct (loadFromFile_ok ns filename c values w Hf Hc Hd)
    as (m & extra & Hload & Hm).
  eexists _, _. split; [exact Hload|]. simpl. split.
  - intros k Hk. apply (f_equal (λ x, x !! k)) in Hm.
    rewrite lookup_fmap, Hk in Hm.
    destruct (m !! k) eqn:Hmk; [done|].
    by rewrite lookup_union_r.
  - intros k v Hk. apply (f_equal (λ x, x !! k)) in Hm.
    rewrite lookup_fmap, Hk in Hm.
    destruct (m !! k) as [r|] eqn:Hmk; [|done].
    exists r. split; [|by inversion Hm].
    by rewrite (lookup_union_Some_l _ _ _ _ Hmk).
Qed.

(** X13. [loadFromFile] of a file that is not there, when nothing else
    goes wrong: the error of [os.Open], which says
    [no such file or directory], and the store and the world are as
    they were. *)
Theorem loadFromFile_missing ns filename w :
  faults w = [] → files w !! filename = None →
  loadFromFile ns filename w
    = Done (ns, Some (PathError "open" filename ENOENT)) w ∧
  os_IsNotExist (PathError "open" filename ENOENT) = true ∧
  Error (PathError "open" filename ENOENT)
    = "open " +:+ filename +:+ ": no such file or directory".
Proof.
  intros Hf Hc. repeat split.
  unfold loadFromFile. io_unfold. by rewrite os_Open_ok, Hc.
Qed.

End Loading.

Lemma loadFromFile_all_or_nothing_witness :
  files world_corrupt = files world_open_refused ∧
  log world_corrupt = log world_open_refused ∧
  location db_A = location db_A ∧
  (Some (PathError "open" "nabia.db" EACCES) ≠ None →
   db_A = db_A ∧ heap world_corrupt = heap world_open_refused) ∧
  (∀ sl, in_heap (heap world_open_refused) sl →
     slice_bytes (heap world_corrupt) sl = slice_bytes (heap world_open_refused) sl).
Proof.
  apply (loadFromFile_all_or_nothing (H := SimpleGob.codec) db_A "nabia.db"
           world_open_refused db_A (Some (PathError "open" "nabia.db" EACCES))
           world_corrupt).
  reflexivity.
Defined.

Lemma loadFromFile_merges_witness :
  ∃ ns' w',
    loadFromFile (H := SimpleGob.codec) db_AB "nabia.db" world_saved_v1
      = Done (ns', None) w' ∧
    (∀ k, ({[ "A" := (Some (list_byte_of_string "new"), "application/json") ]}
             : gmap string (option (list byte) * string)) !! k = None →
       Records ns' !! k = Records db_AB !! k) ∧
    (∀ k v, ({[ "A" := (Some (list_byte_of_string "new"), "application/json") ]}
               : gmap string (option (list byte) * string)) !! k = Some v →
       ∃ r, Records ns' !! k = Some r ∧ record_value (heap w') r = v).
Proof.
  apply (loadFromFile_merges (H := SimpleGob.codec) db_AB "nabia.db"
           (concat (SimpleGob.Encode
                      {[ "A" := (Some (list_byte_of_string "new"), "application/json") ]}))
           {[ "A" := (Some (list_byte_of_string "new"), "application/json") ]}
           world_saved_v1).
  - reflexivity.
  - reflexivity.
  - vm_compute. reflexivity.
Defined.

Lemma loadFromFile_missing_witness :
  loadFromFile (H := SimpleGob.codec) db_A "nabia.db" world_v1
    = Done (db_A, Some (PathError "open" "nabia.db" ENOENT)) world_v1 ∧
  os_IsNotExist (PathError "open" "nabia.db" ENOENT) = true ∧
  Error (PathError "open" "nabia.db" ENOENT)
    = "open " +:+ "nabia.db" +:+ ": no such file or directory".
Proof.
  apply (loadFromFile_missing (H := SimpleGob.codec) db_A "nabia.db" world_v1);
    reflexivity.
Defined.

(** ** Saving *)

Lemma frame_refl f w : frame f w w.
Proof. done. Qed.

Lemma frame_trans f w1 w2 w3 : frame f w1 w2 → frame f w2 w3 → frame f w1 w3.
Proof.
  intros (Hh & Hl & Hf) (Hh' & Hl' & Hf'). repeat split; [congruence..|].
  intros g Hg. by rewrite Hf', Hf.
Qed.

Lemma File_Write_frame file p w r w' :
  File_Write file p w = Done r w' → frame file w w'.
Proof.
  destruct w as [hp fl fs lg]. unfold File_Write, next_fault. io_unfold. simpl.
  destruct fs as [|[errno|] fs]; simpl; intros [= <- <-]; repeat split; simpl;
    try done; intros g Hg; by rewrite lookup_insert_ne.
Qed.

Lemma os_Create_frame name w r w' :
  os_Create name w = Done r w' → frame name w w'.
Proof.
  destruct w as [hp fl fs lg]. unfold os_Create, next_fault. io_unfold. simpl.
  destruct fs as [|[errno|] fs]; simpl; intros [= <- <-]; repeat split; simpl;
    try done; intros g Hg; by rewrite lookup_insert_ne.
Qed.

Lemma bufio_Flush_frame b w b' e w' :
  bufio_Flush b w = Done (b', e) w' → frame (wr b) w w' ∧ wr b' = wr b.
Proof.
  unfold bufio_Flush. destruct (werr b); [by intros [= <- <- <-]|].
  destruct (Buffered b =? 0); [by intros [= <- <- <-]|].
  io_unfold. destruct (File_Write (wr b) (buf b) w) as [r w1|] eqn:Hw; [|done].
  apply File_Write_frame in Hw. by destruct r; intros [= <- <- <-].
Qed.

Lemma bufio_Write_loop_frame fuel : ∀ b p w b' p' w',
  bufio_Write_loop fuel b p w = Done (b', p') w' →
  frame (wr b) w w' ∧ wr b' = wr b.
Proof.
  induction fuel as [|fuel IH]; intros b p w b' p' w'; simpl.
  - by intros [= <- <- <-].
  - destruct (_ && _); [|by intros [= <- <- <-]].
    destruct (Buffered b =? 0); io_unfold.
    + destruct (File_Write (wr b) p w) as [r w1|] eqn:Hw; [|done].
      apply File_Write_frame in Hw.
      destruct r; intros Hrun; apply IH in Hrun as [Hfr Hwr]; simpl in *;
        (split; [by eapply frame_trans|done]).
    + destruct (bufio_Flush _ w) as [[b1 e1] w1|] eqn:Hfl; [|done].
      apply bufio_Flush_frame in Hfl as [Hfr1 Hwr1]. simpl in *.
      intros Hrun. apply IH in Hrun as [Hfr Hwr]. rewrite Hwr1 in *.
      split; [by eapply frame_trans|done].
Qed.

Lemma bufio_Write_frame b p w b' e w' :
  bufio_Write b p w = Done (b', e) w' → frame (wr b) w w' ∧ wr b' = wr b.
Proof.
  unfold bufio_Write. io_unfold.
  destruct (bufio_Write_loop _ b p w) as [[b1 p1] w1|] eqn:Hl; [|done].
  apply bufio_Write_loop_frame in Hl as [Hfr Hwr].
  by destruct (werr b1); intros [= <- <- <-].
Qed.

(** A write that fits in the buffer goes to the buffer and makes no
    system call. *)
Lemma bufio_Write_fits b p w :
  werr b = None → length (buf b) + length p ≤ defaultBufSize →
  bufio_Write b p w
    = Done ({| wr := wr b; buf := buf b ++ p; werr := None |}, None) w.
Proof.
  intros He Hlen. unfold bufio_Write. simpl.
  assert ((Available b <? length p) = false) as ->
    by (apply Nat.ltb_ge; unfold Available; lia).
  io_unfold. simpl. by rewrite He.
Qed.

Section Saving.
Context `{Gob}.

Lemma Encoder_write_frame msgs : ∀ b w b' e w',
  Encoder_write b msgs w = Done (b', e) w' → frame (wr b) w w' ∧ wr b' = wr b.
Proof.
  induction msgs as [|m msgs IH]; intros b w b' e w'; simpl.
  - by intros [= <- <- <-].
  - io_unfold. destruct (bufio_Write b m w) as [[b1 e1] w1|] eqn:Hw; [|done].
    apply bufio_Write_frame in Hw as [Hfr Hwr].
    destruct e1; [by intros [= <- <- <-]|].
    intros Hrun. apply IH in Hrun as [Hfr' Hwr']. rewrite Hwr in *.
    split; [by eapply frame_trans|done].
Qed.

Lemma Encoder_write_fits msgs : ∀ b w,
  werr b = None → length (buf b) + length (concat msgs) ≤ defaultBufSize →
  Encoder_write b msgs w
    = Done ({| wr := wr b; buf := buf b ++ concat msgs; werr := None |}, None) w.
Proof.
  induction msgs as [|m msgs IH]; intros b w He Hlen; simpl in *.
  - io_unfold. rewrite app_nil_r. destruct b; simpl in *; by subst.
  - rewrite length_app in Hlen. io_unfold.
    rewrite bufio_Write_fits by (done || lia).
    rewrite IH by (simpl; rewrite ?length_app; done || lia).
    simpl. by rewrite app_assoc.
Qed.

(** X14. [saveToFile] works on its target only: whatever the system
    calls answer and whatever it returns, every other file, the heap
    and the log are as they were. *)
Theorem saveToFile_touches_only_target ns filename w r w' :
  saveToFile ns filename w = Done r w' →
  heap w' = heap w ∧ log w' = log w ∧
  ∀ g, g ≠ filename → files w' !! g = files w !! g.
Proof.
  unfold saveToFile, Encoder_Encode. io_unfold.
  destruct (os_Create filename w) as [[err|file] w1|] eqn:Hc; [| |done].
  - apply os_Create_frame in Hc. by intros [= <- <-].
  - assert (file = filename) as ->.
    { revert Hc. unfold os_Create, next_fault. io_unfold.
      destruct (faults w) as [|[errno|] fs]; by intros [= <- _]. }
    apply os_Create_frame in Hc.
    destruct (Encoder_write _ _ w1) as [[b1 e1] w2|] eqn:He; [|done].
    apply Encoder_write_frame in He as [Hfr Hwr]. simpl in *.
    destruct (bufio_Flush b1 w2) as [[b2 e2] w3|] eqn:Hfl; [|done].
    apply bufio_Flush_frame in Hfl as [Hfr' _]. rewrite Hwr in Hfr'.
    intros [= <- <-].
    exact (frame_trans _ _ _ _ (frame_trans _ _ _ _ Hc Hfr) Hfr').
Qed.

(** X15. [saveToFile] replaces what the target held: when no system
    call fails it returns no error and the target holds the encoding of
    the records of the store and nothing of its former content; every
    other file, the heap and the log are as before. *)
Theorem saveToFile_overwrites ns filename w :
  faults w = [] →
  ∃ w1,
    saveToFile ns filename w = Done None w1 ∧
    files w1 !! filename
      = Some (concat (gob_Encode (record_value (heap w) <$> Records ns))) ∧
    files w1 = <[filename := concat (gob_Encode (record_value (heap w) <$> Records ns))]>
                 (files w) ∧
    heap w1 = heap w ∧ log w1 = log w.
Proof.
  intros Hf. eexists. split; [by apply saveToFile_ok|]. simpl.
  split; [apply lookup_insert_eq|done].
Qed.

(** X16. The error of the deferred [writer.Flush] is lost: when the
    encoding of the store fits in the buffer of the writer, no byte
    goes to the file before the flush, and if the write of the flush
    fails, [saveToFile] still returns no error and leaves the target
    empty. *)
Theorem saveToFile_drops_flush_error ns filename errno fs w :
  faults w = None :: Some errno :: fs →
  concat (gob_Encode (record_value (heap w) <$> Records ns)) ≠ [] →
  length (concat (gob_Encode (record_value (heap w) <$> Records ns)))
    ≤ defaultBufSize →
  saveToFile ns filename w
    = Done None (set_faults fs (set_files (<[filename := []]> (files w)) w)).
Proof.
  intros Hf Hne Hlen. destruct w as [hp fl fs0 lg]. simpl in *. subst fs0.
  unfold saveToFile, Encoder_Encode, os_Create. io_unfold.
  rewrite map_fold_insert_empty.
  cbn [next_fault faults set_faults heap files log set_files].
  rewrite Encoder_write_fits by done. cbn [bufio_NewWriter buf wr werr app].
  unfold bufio_Flush, Buffered. cbn [werr buf wr].
  destruct (concat _) as [|x l] eqn:Hbytes; [done|].
  cbn [length Nat.eqb]. unfold File_Write. io_unfold.
  cbn [next_fault faults set_faults heap files log set_files]. done.
Qed.

End Saving.

Lemma saveToFile_touches_only_target_witness :
  heap (set_faults [] (set_files {[ "nabia.db" := [] ]} world_write_refused))
    = heap world_write_refused ∧
  log (set_faults [] (set_files {[ "nabia.db" := [] ]} world_write_refused))
    = log world_write_refused ∧
  ∀ g, g ≠ "nabia.db" →
    files (set_faults [] (set_files {[ "nabia.db" := [] ]} world_write_refused)) !! g
      = files world_write_refused !! g.
Proof.
  apply (saveToFile_touches_only_target (H := SimpleGob.codec) db_A "nabia.db"
           world_write_refused None).
  vm_compute. reflexivity.
Defined.

Lemma saveToFile_overwrites_witness :
  ∃ w1,
    saveToFile (H := SimpleGob.codec) db_A "nabia.db"
      (set_faults [] world_write_refused) = Done None w1 ∧
    files w1 !! "nabia.db" =
      Some (concat (SimpleGob.Encode
                      (record_value (heap (set_faults [] world_write_refused))
                         <$> Records db_A))) ∧
    files w1 =
      <["nabia.db" :=
          concat (SimpleGob.Encode
                    (record_value (heap (set_faults [] world_write_refused))
                       <$> Records db_A))]>
        (files (set_faults [] world_write_refused)) ∧
    heap w1 = heap (set_faults [] world_write_refused) ∧
    log w1 = log (set_faults [] world_write_refused).
Proof.
  apply (saveToFile_overwrites (H := SimpleGob.codec) db_A "nabia.db"
           (set_faults [] world_write_refused)).
  reflexivity.
Defined.

Lemma saveToFile_drops_flush_error_witness :
  saveToFile (H := SimpleGob.codec) db_A "nabia.db" world_write_refused
    = Done None
        (set_faults [] (set_files (<["nabia.db" := []]> (files world_write_refused))
                                  world_write_refused)).
Proof.
  apply (saveToFile_drops_flush_error (H := SimpleGob.codec) db_A "nabia.db" ENOSPC []
           world_write_refused).
  - reflexivity.
  - vm_compute. discriminate.
  - vm_compute. repeat constructor.
Defined.

(** ** Construction *)

Lemma checkOrCreateFile_inv `{Gob} location w b e w' :
  checkOrCreateFile location w = Done (b, e) w' →
  heap w' = heap w ∧ log w' = log w ∧
  match e with
  | None =>
      if b then files w' = files w ∧ is_Some (files w !! location)
      else files w' = <[location := []]> (files w)
  | Some _ => b = false ∧ files w' = files w
  end.
Proof.
  destruct w as [hp fl fs lg].
  unfold checkOrCreateFile, os_Stat, os_Create, next_fault. io_unfold.
  destruct fs as [|[errno|] fs]; simpl.
  - destruct (fl !! location) eqn:Hl; simpl; intros [= <- <- <-]; simpl;
      rewrite ?Hl; eauto.
  - destruct errno; simpl; try (intros [= <- <- <-]; by simpl).
    destruct fs as [|[errno'|] fs']; simpl; intros [= <- <- <-]; by simpl.
  - destruct (fl !! location) eqn:Hl; simpl.
    + intros [= <- <- <-]. simpl. rewrite ?Hl. eauto.
    + destruct fs as [|[errno'|] fs']; simpl; intros [= <- <- <-]; by simpl.
Qed.

Section Construction.
Context `{Gob}.

(** X17. What [checkOrCreateFile] tells: with no error, [true] means
    the file was there and has not been touched, [false] means the
    file is now there and empty; with an error the boolean is [false]
    and no file has changed. The heap and the log are never touched.
    When no system call fails the boolean says whether the file was
    there. *)
Theorem checkOrCreateFile_reports location w :
  (∀ b e w', checkOrCreateFile location w = Done (b, e) w' →
     heap w' = heap w ∧ log w' = log w ∧
     match e with
     | None =>
         if b then files w' = files w ∧ is_Some (files w !! location)
         else files w' = <[location := []]> (files w)
     | Some _ => b = false ∧ files w' = files w
     end) ∧
  (faults w = [] →
   ∃ w', checkOrCreateFile location w
           = Done (bool_decide (is_Some (files w !! location)), None) w').
Proof.
  split; [intros b e w'; apply checkOrCreateFile_inv|].
  intros Hf. destruct (files w !! location) as [c|] eqn:Hl.
  - exists w. rewrite bool_decide_eq_true_2 by eauto.
    by eapply checkOrCreateFile_exists.
  - eexists. rewrite bool_decide_eq_false_2 by (by intros [? ?]).
    by apply checkOrCreateFile_absent.
Qed.

(** X18. The three ways [NewNabiaDB] ends, whatever the system calls
    answer: it returns a store on the location asked for and no error,
    nothing logged; or it returns no store and an error, with the heap,
    the files and the log as they were; or it ends the process with
    status 1 after one log line that starts with
    [Failed to save to file: ]. It never returns both a store and an
    error, nor neither. *)
Theorem NewNabiaDB_outcomes loc_ w :
  (∃ ndb w', NewNabiaDB loc_ w = Done (Some ndb, None) w' ∧
             location ndb = loc_ ∧ log w' = log w) ∨
  (∃ e w', NewNabiaDB loc_ w = Done (None, Some e) w' ∧
           heap w' = heap w ∧ files w' = files w ∧ log w' = log w) ∨
  (∃ e w', NewNabiaDB loc_ w = Exit 1 w' ∧
           log w' = log w ++ ["Failed to save to file: " +:+ Error e]).
Proof.
  unfold NewNabiaDB. io_unfold.
  destruct (calm_checkOrCreateFile loc_ w) as ([b e] & w1 & Hck & Hlog1 & _).
  rewrite Hck. destruct (checkOrCreateFile_inv _ _ _ _ _ Hck) as (Hh & _ & Hfiles).
  destruct e as [e|].
  - right; left. destruct Hfiles as [_ Hfiles]. by exists e, w1.
  - destruct b.
    + destruct (calm_loadFromFile {| Records := ∅; location := loc_ |} loc_ w1)
        as ([ndb' e'] & w2 & Hload & Hlog2 & _).
      rewrite Hload. left. exists ndb', w2. split; [done|].
      apply loadFromFile_location in Hload.
      split; [done|congruence].
    + destruct (calm_saveToFile {| Records := ∅; location := loc_ |} loc_ w1)
        as (e' & w2 & Hsave & Hlog2 & _).
      rewrite Hsave. destruct e' as [e'|].
      * right; right. exists e'. eexists. split; [reflexivity|]. simpl. congruence.
      * left. exists {| Records := ∅; location := loc_ |}, w2.
        split; [done|]. split; [done|congruence].
Qed.

(** X19. Opening a target that is not there and opening it again: the
    first [NewNabiaDB] creates the target and returns the empty store;
    the second reads the target back into an empty store and changes
    nothing. No system call is taken to fail, and the codec to read
    back the empty snapshot it wrote. *)
Theorem NewNabiaDB_reopen loc_ w :
  faults w = [] → files w !! loc_ = None → gob_round_trips ∅ →
  ∃ w1,
    NewNabiaDB loc_ w = Done (Some (empty_db loc_), None) w1 ∧
    files w1 = <[loc_ := concat (gob_Encode ∅)]> (files w) ∧
    NewNabiaDB loc_ w1 = Done (Some (empty_db loc_), None) w1.
Proof.
  intros Hf Hc (values & Hdec & Hwire).
  rewrite fmap_empty in Hwire. apply fmap_empty_inv in Hwire. subst values.
  exists (set_files (<[loc_ := concat (gob_Encode ∅)]> (files w)) w).
  split; [|split; [done|]].
  - unfold NewNabiaDB. io_unfold. rewrite checkOrCreateFile_absent by done.
    fold (empty_db loc_). rewrite saveToFile_ok by done. simpl.
    by rewrite fmap_empty, insert_insert_eq.
  - set (w1 := set_files _ w).
    assert (Hc1 : files w1 !! loc_ = Some (concat (gob_Encode ∅)))
      by apply lookup_insert_eq.
    unfold NewNabiaDB. io_unfold.
    rewrite (checkOrCreateFile_exists loc_ _ w1 Hf Hc1).
    unfold loadFromFile, Decoder_Decode. io_unfold.
    rewrite os_Open_ok, Hc1 by done.
    rewrite (File_ReadAll_ok loc_ _ w1 Hf Hc1), Hdec.
    rewrite map_to_list_empty. simpl.
    by rewrite map_fold_empty.
Qed.

End Construction.

Lemma checkOrCreateFile_reports_witness :
  ∃ w', checkOrCreateFile "nabia.db" world_corrupt
          = Done (bool_decide (is_Some (files world_corrupt !! "nabia.db")), None) w'.
Proof.
  apply (checkOrCreateFile_reports (H := SimpleGob.codec) "nabia.db" world_corrupt).
  reflexivity.
Defined.

Lemma NewNabiaDB_reopen_witness :
  ∃ w1,
    NewNabiaDB (H := SimpleGob.codec) "nabia.db" empty_world
      = Done (Some (empty_db "nabia.db"), None) w1 ∧
    files w1 = <["nabia.db" := concat (SimpleGob.Encode ∅)]> (files empty_world) ∧
    NewNabiaDB (H := SimpleGob.codec) "nabia.db" w1
      = Done (Some (empty_db "nabia.db"), None) w1.
Proof.
  apply (NewNabiaDB_reopen (H := SimpleGob.codec) "nabia.db" empty_world).
  - reflexivity.
  - reflexivity.
  - exists ∅. split; vm_compute; reflexivity.
Defined.

(** ** A store across a restart *)

Section Restart.
Context `{Gob}.

(** Saving, then opening the target again, when no system call fails
    and the codec reads back what it wrote. *)
Lemma reopen_after_save ns target w :
  faults w = [] →
  gob_round_trips (record_value (heap w) <$> Records ns) →
  ∃ w1 ns2 w2,
    saveToFile ns target w = Done None w1 ∧
    NewNabiaDB target w1 = Done (Some ns2, None) w2 ∧
    ∀ key,
      match Records ns !! key with
      | Some r =>
          ∃ r2, Records ns2 !! key = Some r2 ∧
                slice_bytes (heap w2) (RawData r2) = slice_bytes (heap w) (RawData r) ∧
                ContentType r2 = ContentType r
      | None => Records ns2 !! key = None
      end.
Proof.
  intros Hf (values & Hdec & Hwire).
  set (c := concat (gob_Encode (record_value (heap w) <$> Records ns))) in *.
  set (w1 := set_files (<[target := c]> (files w)) w).
  assert (Hc : files w1 !! target = Some c) by apply lookup_insert_eq.
  destruct (loadFromFile_ok (empty_db target) target c values w1)
    as (m & extra & Hload & Hm); [done..|].
  exists w1, (with_Records (empty_db target) (m ∪ ∅)), (set_heap (heap w1 ++ extra) w1).
  split; [by apply saveToFile_ok|]. split.
  { unfold NewNabiaDB. io_unfold.
    rewrite (checkOrCreateFile_exists target c) by done.
    fold (empty_db target). by rewrite Hload. }
  simpl. rewrite (right_id_L ∅ (∪)).
  change (heap w1) with (heap w) in Hm.
  intros key.
  assert (Heq : wire <$> (record_value (heap w ++ extra) <$> m)
                = wire <$> (record_value (heap w) <$> Records ns))
    by (by rewrite Hm).
  apply (f_equal (λ x, x !! key)) in Heq. rewrite !lookup_fmap in Heq.
  destruct (Records ns !! key) as [r|], (m !! key) as [r2|]; simpl in Heq; try done.
  exists r2. split; [done|].
  rewrite !wire_record_value in Heq. by inversion Heq.
Qed.

(** X20. What was written is there after a restart: after a [Write]
    that is accepted, [saveToFile] and a new [NewNabiaDB] on the
    target, [Read] of the key returns a record with the payload bytes
    and the content type written, and the new store has the keys of
    the old one and no other. *)
Theorem Write_survives_restart ns key value target w :
  faults w = [] → valid key value →
  gob_round_trips (record_value (heap w) <$> Records (Write ns key value).1) →
  ∃ w1 ns2 w2 r2,
    saveToFile (Write ns key value).1 target w = Done None w1 ∧
    NewNabiaDB target w1 = Done (Some ns2, None) w2 ∧
    Read ns2 key = (r2, None) ∧
    slice_bytes (heap w2) (RawData r2) = slice_bytes (heap w) (RawData value) ∧
    ContentType r2 = ContentType value ∧
    ∀ k, Exists ns2 k = Exists (Write ns key value).1 k.
Proof.
  intros Hf Hv Hrt.
  destruct (reopen_after_save (Write ns key value).1 target w Hf Hrt)
    as (w1 & ns2 & w2 & Hsave & Hnew & Hkeys).
  pose proof (Hkeys key) as Hkey.
  rewrite (Write_valid ns key value Hv) in Hkey. simpl in Hkey.
  rewrite lookup_insert_eq in Hkey. destruct Hkey as (r2 & Hr2 & Hb & Hct).
  exists w1, ns2, w2, r2. repeat split; try done.
  - unfold Read. by rewrite Hr2.
  - intros k. unfold Exists. specialize (Hkeys k).
    destruct (Records (Write ns key value).1 !! k).
    + by destruct Hkeys as (? & -> & _).
    + by rewrite Hkeys.
Qed.

(** X21. What was destroyed stays away after a restart: after
    [Destroy], [saveToFile] and a new [NewNabiaDB] on the target, the
    key does not exist and [Read] of it fails. *)
Theorem Destroy_survives_restart ns key target w :
  faults w = [] →
  gob_round_trips (record_value (heap w) <$> Records (Destroy ns key)) →
  ∃ w1 ns2 w2,
    saveToFile (Destroy ns key) target w = Done None w1 ∧
    NewNabiaDB target w1 = Done (Some ns2, None) w2 ∧
    Exists ns2 key = false ∧
    Read ns2 key = (zero_record, Some (NotFound key)).
Proof.
  intros Hf Hrt.
  destruct (reopen_after_save (Destroy ns key) target w Hf Hrt)
    as (w1 & ns2 & w2 & Hsave & Hnew & Hkeys).
  specialize (Hkeys key). simpl in Hkeys. rewrite lookup_delete_eq in Hkeys.
  exists w1, ns2, w2. unfold Exists, Read. by rewrite Hkeys.
Qed.

End Restart.

Lemma Write_survives_restart_witness :
  ∃ w1 ns2 w2 r2,
    saveToFile (H := SimpleGob.codec) (Write db_A "B" record_v2).1 "nabia.db" world_v1
      = Done None w1 ∧
    NewNabiaDB (H := SimpleGob.codec) "nabia.db" w1 = Done (Some ns2, None) w2 ∧
    Read ns2 "B" = (r2, None) ∧
    slice_bytes (heap w2) (RawData r2) = slice_bytes (heap world_v1) (RawData record_v2) ∧
    ContentType r2 = ContentType record_v2 ∧
    ∀ k, Exists ns2 k = Exists (Write db_A "B" record_v2).1 k.
Proof.
  apply (Write_survives_restart (H := SimpleGob.codec) db_A "B" record_v2
           "nabia.db" world_v1).
  - reflexivity.
  - repeat split; discriminate.
  - eexists. split; vm_compute; reflexivity.
Defined.

Lemma Destroy_survives_restart_witness :
  ∃ w1 ns2 w2,
    saveToFile (H := SimpleGob.codec) (Destroy db_AB "A") "nabia.db" world_v1
      = Done None w1 ∧
    NewNabiaDB (H := SimpleGob.codec) "nabia.db" w1 = Done (Some ns2, None) w2 ∧
    Exists ns2 "A" = false ∧
    Read ns2 "A" = (zero_record, Some (NotFound "A")).
Proof.
  apply (Destroy_survives_restart (H := SimpleGob.codec) db_AB "A" "nabia.db" world_v1).
  - reflexivity.
  - eexists. split; vm_compute; reflexivity.
Defined.
